(** * Diplodocus: the reader view, the book cards and the record store

    A shallow embedding of [reader.js] (the full-screen reader view that
    wires the [TTSEngine] to the controls), of the book-card module
    ([confirmRemove]) and of the Dexie schema of [js/db.js], together
    with the properties the specification states about them.

    The narration engine ([tts.js]), the sentence tokenizer and the
    record store ([storage.js]) are not among the sources.  The reader
    is embedded over an interface of the engine ([Reader.Engine]), so
    that what is proved of [reader.js] holds for every engine; where a
    property speaks of what these parts do themselves, they are modelled
    from the specification ([TTS], [Tokenizer], [Store]). *)

From Stdlib Require Import Ascii String.
From stdpp Require Import base option list gmap strings pretty sorting.

Local Open Scope string_scope.
Local Open Scope list_scope.
Local Open Scope nat_scope.

(** ** js/db.js *)

Module Db.

(** [books: '++id, title, author, filename, fileSize, addedAt'], with the
    non-indexed fields [coverBlob] and [chapterCount].  The primary key
    [++id] is the key of the table, not a field of the row. *)
Record BookRow := {
  b_title : string;
  b_author : string;
  b_filename : string;
  b_fileSize : Z;
  b_addedAt : Z;
  b_coverBlob : option nat;
  b_chapterCount : Z
}.

(** A book object as Dexie returns it: the row and its primary key. *)
Record Book := {
  id : Z;
  row : BookRow
}.

(** [chapters: '++id, bookId, spineIndex'], with the non-indexed fields
    [title] and [href]; the sentence sequence of a chapter (section 3 of
    the specification) travels with the row. *)
Record ChapterRow := {
  bookId : Z;
  spineIndex : Z;
  title : string;
  href : string;
  sentences : list string
}.

(** A Dexie table with an auto-incremented primary key: the stored rows
    and the next key [++id] hands out. *)
Record Table (A : Type) := {
  rows : gmap Z A;
  next_id : Z
}.
Arguments rows {A} _.
Arguments next_id {A} _.

Definition table_empty {A} : Table A := {| rows := ∅; next_id := 1 |}.

(** [table.add(row)] *)
Definition table_add {A} (r : A) (t : Table A) : Table A :=
  {| rows := <[next_id t := r]> (rows t); next_id := (next_id t + 1)%Z |}.

(** [table.delete(key)] *)
Definition table_delete {A} (k : Z) (t : Table A) : Table A :=
  {| rows := delete k (rows t); next_id := next_id t |}.

(** [table.where(field).equals(v).delete()] *)
Definition table_delete_where {A} (field : A → Z) (v : Z) (t : Table A)
  : Table A :=
  {| rows := filter (λ kr, field kr.2 ≠ v) (rows t); next_id := next_id t |}.

(** [table.where(field).equals(v).toArray()] *)
Definition table_where {A} (field : A → Z) (v : Z) (t : Table A) : list A :=
  (map_to_list (filter (λ kr, field kr.2 = v) (rows t))).*2.

(** The database [EReaderDB] at version 2. *)
Record t := {
  books : Table BookRow;
  chapters : Table ChapterRow
}.

Definition empty : t := {| books := table_empty; chapters := table_empty |}.

End Db.

(** ** The record store (section 6 of the specification) *)

Module Store.

(** What the Chapter Assembler hands over for one narratable spine item. *)
Record ChapterData := {
  c_title : string;
  c_href : string;
  c_sentences : list string
}.

(** Modelled from the spec: the state of the external record store of
    section 6, whose implementation ([storage.js] and the import
    pipeline) is not part of the sources.  The chapter and book rows are
    the Dexie tables of [js/db.js]; [files] holds the ids of the books
    whose raw file is stored, [positions] the one [PlaybackPosition] row
    per book of section 3. *)
Record t := {
  db : Db.t;
  files : gset Z;
  positions : gmap Z (Z * Z)
}.

Definition empty : t := {| db := Db.empty; files := ∅; positions := ∅ |}.

Definition set_chapters (c : Db.Table Db.ChapterRow) (s : t) : t :=
  {| db := {| Db.books := Db.books (db s); Db.chapters := c |};
     files := files s; positions := positions s |}.

Definition set_books (b : Db.Table Db.BookRow) (s : t) : t :=
  {| db := {| Db.books := b; Db.chapters := Db.chapters (db s) |};
     files := files s; positions := positions s |}.

(** Modelled from the spec: one row per element of an ordered chapter
    list, in spine order (section 4.6); the [i]-th element gets spine
    index [i]. *)
Fixpoint add_chapters (bookId : Z) (i : Z) (l : list ChapterData)
    (tb : Db.Table Db.ChapterRow) : Db.Table Db.ChapterRow :=
  match l with
  | [] => tb
  | c :: l =>
      add_chapters bookId (i + 1) l
        (Db.table_add
           {| Db.bookId := bookId; Db.spineIndex := i;
              Db.title := c_title c; Db.href := c_href c;
              Db.sentences := c_sentences c |} tb)
  end.

(** The keys of the rows are below the next key [++id] hands out. *)
Definition keys_fresh (tb : Db.Table Db.ChapterRow) : Prop :=
  ∀ k r, Db.rows tb !! k = Some r → (k < Db.next_id tb)%Z.

(** Within a book no two rows share a spine index. *)
Definition spine_unique (tb : Db.Table Db.ChapterRow) : Prop :=
  ∀ k1 k2 r1 r2,
    Db.rows tb !! k1 = Some r1 → Db.rows tb !! k2 = Some r2 →
    Db.bookId r1 = Db.bookId r2 → Db.spineIndex r1 = Db.spineIndex r2 →
    k1 = k2.

(** The rows [add_chapters] writes for a chapter list, in its order. *)
Fixpoint rows_of (bookId : Z) (i : Z) (l : list ChapterData)
  : list Db.ChapterRow :=
  match l with
  | [] => []
  | c :: l =>
      {| Db.bookId := bookId; Db.spineIndex := i;
         Db.title := c_title c; Db.href := c_href c;
         Db.sentences := c_sentences c |} :: rows_of bookId (i + 1) l
  end.

(** Modelled from the spec: [putChapters(bookId, orderedChapterList)],
    keyed by book id with simple put semantics (section 1): the rows the
    book had are replaced by the given list, one row per narratable spine
    item in spine order (section 4.6). *)
Definition putChapters (bookId : Z) (l : list ChapterData) (s : t) : t :=
  set_chapters
    (add_chapters bookId 0 l
       (Db.table_delete_where Db.bookId bookId (Db.chapters (db s)))) s.

Definition spine_le (r1 r2 : Db.ChapterRow) : Prop :=
  (Db.spineIndex r1 ≤ Db.spineIndex r2)%Z.

Definition spine_lt (r1 r2 : Db.ChapterRow) : Prop :=
  (Db.spineIndex r1 < Db.spineIndex r2)%Z.

Global Instance spine_le_dec r1 r2 : Decision (spine_le r1 r2) :=
  Z_le_dec _ _.

(** Modelled from the spec: [getChapters(bookId)], the rows of the book
    "in spine-index order" (section 6); the query the schema of
    [js/db.js] indexes [bookId] and [spineIndex] for. *)
Definition getChapters (bookId : Z) (s : t) : list Db.ChapterRow :=
  merge_sort spine_le (Db.table_where Db.bookId bookId (Db.chapters (db s))).

(** Modelled from the spec: [putPosition(bookId, {chapterIndex,
    sentenceIndex})]; the row of the book is overwritten, not appended
    (section 3). *)
Definition putPosition (bookId : Z) (pos : Z * Z) (s : t) : t :=
  {| db := db s; files := files s;
     positions := <[bookId := pos]> (positions s) |}.

(** Modelled from the spec: [getPosition(bookId) -> position | absent]. *)
Definition getPosition (bookId : Z) (s : t) : option (Z * Z) :=
  positions s !! bookId.

(** Modelled from the spec: [deleteBook(bookId)] of [storage.js], which is
    not part of the sources.  It removes the stored raw file of the book
    (the local copy the confirmation dialog of [confirmRemove] announces
    the deletion of) and "cascades chapters and position" (section 6). *)
Definition deleteBook (bookId : Z) (s : t) : t :=
  {| db := {| Db.books := Db.books (db s);
              Db.chapters :=
                Db.table_delete_where Db.bookId bookId (Db.chapters (db s)) |};
     files := files s ∖ {[bookId]};
     positions := delete bookId (positions s) |}.

(** The operations that write the chapter rows: the import of a book, the
    [db.chapters.where('bookId').equals(id).delete()] of [confirmRemove]
    and [deleteBook]. *)
Inductive op :=
  | PutChapters (bookId : Z) (l : list ChapterData)
  | DeleteChapters (bookId : Z)
  | DeleteBook (bookId : Z)
  | PutPosition (bookId : Z) (pos : Z * Z).

Definition apply (s : t) (o : op) : t :=
  match o with
  | PutChapters b l => putChapters b l s
  | DeleteChapters b =>
      set_chapters (Db.table_delete_where Db.bookId b (Db.chapters (db s))) s
  | DeleteBook b => deleteBook b s
  | PutPosition b pos => putPosition b pos s
  end.

Definition run (ops : list op) : t := foldl apply empty ops.

End Store.

(** ** The sentence tokenizer (section 4.5 of the specification) *)

Module Tokenizer.

Definition is_terminal (c : ascii) : bool :=
  bool_decide (c = "."%char) || bool_decide (c = "?"%char)
  || bool_decide (c = "!"%char).

Definition is_space (c : ascii) : bool :=
  bool_decide (c = " "%char) || bool_decide (c = "009"%char)
  || bool_decide (c = "010"%char) || bool_decide (c = "013"%char).

Definition is_digit (c : ascii) : bool :=
  let n := nat_of_ascii c in (48 <=? n)%nat && (n <=? 57)%nat.

Definition is_upper (c : ascii) : bool :=
  let n := nat_of_ascii c in (65 <=? n)%nat && (n <=? 90)%nat.

Fixpoint take_while {A} (f : A → bool) (l : list A) : list A :=
  match l with
  | x :: l => if f x then x :: take_while f l else []
  | [] => []
  end.

Fixpoint drop_while {A} (f : A → bool) (l : list A) : list A :=
  match l with
  | x :: l' => if f x then drop_while f l' else l
  | [] => []
  end.

(** Modelled from the spec: the "fixed set" of abbreviation tokens of
    section 4.5. *)
Definition abbreviations : list string :=
  ["Mr"; "Mrs"; "Dr"; "St"; "vs"; "etc"; "e.g"; "i.e"].

(** The characters of the word that ends where the sentence read so far
    ends; [before] is that text, last character first. *)
Definition last_token (before : list ascii) : list ascii :=
  reverse (take_while (λ c, negb (is_space c)) before).

(** Modelled from the spec: "a known abbreviation token [...], single
    initials like "A."". *)
Definition is_abbreviation (tok : list ascii) : bool :=
  bool_decide (string_of_list_ascii tok ∈ abbreviations)
  || match tok with [c] => is_upper c | _ => false end.

Definition head_is (f : ascii → bool) (l : list ascii) : bool :=
  match l with c :: _ => f c | [] => false end.

(** Modelled from the spec: a mark is followed by "whitespace or
    end-of-text". *)
Definition at_boundary (after : list ascii) : bool :=
  match after with [] => true | c :: _ => is_space c end.

(** Modelled from the spec: the three cases in which a split is
    suppressed: the mark follows an abbreviation token; a [.] has a digit
    on both sides; the mark is inside a run of terminal punctuation and
    not its final character. *)
Definition suppressed (before : list ascii) (c : ascii) (after : list ascii)
  : bool :=
  is_abbreviation (last_token before)
  || (bool_decide (c = "."%char) && head_is is_digit before
      && head_is is_digit after)
  || head_is is_terminal after.

Definition trim (l : list ascii) : list ascii :=
  reverse (drop_while is_space (reverse (drop_while is_space l))).

(** Modelled from the spec: a sentence is trimmed and emitted unless
    nothing is left of it. *)
Definition emit (cur : list ascii) (acc : list string) : list string :=
  match trim (reverse cur) with
  | [] => acc
  | s => acc ++ [string_of_list_ascii s]
  end.

(** Modelled from the spec: the scan of the text for split points.
    [cur] is the sentence read so far, last character first; [acc] the
    sentences already emitted. *)
Fixpoint scan (cur : list ascii) (acc : list string) (l : list ascii)
  : list string :=
  match l with
  | [] => emit cur acc
  | c :: rest =>
      if is_terminal c && at_boundary rest && negb (suppressed cur c rest)
      then scan [] (emit (c :: cur) acc) rest
      else scan (c :: cur) acc rest
  end.

(** Modelled from the spec: the Sentence Tokenizer of section 4.5, whose
    source is not part of the sources: it splits on [.], [?], [!] followed
    by whitespace or end-of-text unless the split is suppressed, and
    trims each emitted sentence. *)
Definition tokenize (text : string) : list string :=
  scan [] [] (list_ascii_of_string text).

(** Paragraph boundaries are hard sentence boundaries. *)
Definition tokenize_paragraphs (ps : list string) : list string :=
  ps ≫= tokenize.

End Tokenizer.

(** ** reader.js *)

Module Reader.

(** The argument of the render callback.  [_render] destructures
    [{ state, chapIdx, sentIdx, totalChapters, chapterTitle,
    currentSentence }]; the indices and the count are integers, the rest
    are strings. *)
Record RenderPayload := {
  state : string;
  chapIdx : Z;
  sentIdx : Z;
  totalChapters : Z;
  chapterTitle : string;
  currentSentence : string
}.

(** [btnPlay.innerHTML] is one of the two SVG icons. *)
Inductive icon := IconPlay | IconPause.

(** [elFill.style.width]: either the literal ['0%'] or the template
    [`${(chNum / totalChapters) * 100}%`], kept as the two integers the
    floating-point quotient is taken from. *)
Inductive css_width :=
  | WidthZero
  | WidthPercent (chNum total : Z).

(** [elCover.innerHTML]: empty, the [<img>] of an object URL, or the
    placeholder built from [coverGradient] and the first letter of the
    title (both from [utils.js]). *)
Inductive cover_html :=
  | CoverEmpty
  | CoverImg (url : nat) (title : string)
  | CoverPlaceholder (title : string).

(** The DOM nodes the module holds references to. *)
Record Dom := {
  readerView_hidden : bool;
  readerView_state : string;          (* readerView.dataset.state *)
  main_hidden : bool;
  header_hidden : bool;
  elBookTitle : string;
  elCover : cover_html;
  elChapter : string;
  elSentence : string;
  elFill_width : css_width;
  elLabel : string;
  btnPlay_icon : icon;
  btnPlay_title : string;
  btnPlay_aria : string;
  btnPlay_disabled : bool;
  btnStop_disabled : bool;
  btnRewind_disabled : bool;
  btnForward_disabled : bool
}.

(** A document whose nodes are empty and whose controls are enabled, with
    the reader hidden: the page before the module touches it. *)
Definition blank : Dom :=
  {| readerView_hidden := true; readerView_state := "";
     main_hidden := false; header_hidden := false;
     elBookTitle := ""; elCover := CoverEmpty;
     elChapter := ""; elSentence := "";
     elFill_width := WidthZero; elLabel := "";
     btnPlay_icon := IconPlay; btnPlay_title := ""; btnPlay_aria := "";
     btnPlay_disabled := false; btnStop_disabled := false;
     btnRewind_disabled := false; btnForward_disabled := false |}.

(** The DOM part of [_render] (everything but [lastState = state]). *)
Definition _render_dom (p : RenderPayload) (d : Dom) : Dom :=
  let chNum := (chapIdx p + 1)%Z in
  let isPlaying := String.eqb (state p) "playing" in
  let ready :=
    negb (String.eqb (state p) "idle") &&
    negb (String.eqb (state p) "loading") &&
    (0 <? totalChapters p)%Z in
  let noChapters :=
    (totalChapters p =? 0)%Z && negb (String.eqb (state p) "loading") in
  {| readerView_hidden := readerView_hidden d;
     readerView_state := state p;
     main_hidden := main_hidden d;
     header_hidden := header_hidden d;
     elBookTitle := elBookTitle d;
     elCover := elCover d;
     elChapter :=
       if noChapters then "No chapters found"
       else if String.eqb (chapterTitle p) "" then "—" else chapterTitle p;
     elSentence :=
       if noChapters then "Remove and re-import this book to enable playback."
       else if String.eqb (state p) "loading" then "Loading…"
       else if String.eqb (state p) "stopped" && String.eqb (currentSentence p) ""
            then "Press play to start."
       else currentSentence p;
     elFill_width :=
       if (0 <? totalChapters p)%Z then WidthPercent chNum (totalChapters p)
       else WidthZero;
     elLabel :=
       if (0 <? totalChapters p)%Z
       then "Chapter " +:+ pretty chNum +:+ " of " +:+ pretty (totalChapters p)
       else "";
     btnPlay_icon := if isPlaying then IconPause else IconPlay;
     btnPlay_title := if isPlaying then "Pause" else "Play";
     btnPlay_aria := if isPlaying then "Pause" else "Play";
     btnPlay_disabled := negb ready;
     btnStop_disabled := negb ready || String.eqb (state p) "stopped";
     btnRewind_disabled := negb ready;
     btnForward_disabled := negb ready |}.








Definition loading_payload : RenderPayload :=
  {| state := "loading"; chapIdx := 0; sentIdx := 0; totalChapters := 0;
     chapterTitle := ""; currentSentence := "" |}.





Definition set_elBookTitle (s : string) (d : Dom) : Dom :=
  {| readerView_hidden := readerView_hidden d;
     readerView_state := readerView_state d;
     main_hidden := main_hidden d;
     header_hidden := header_hidden d;
     elBookTitle := s;
     elCover := elCover d;
     elChapter := elChapter d;
     elSentence := elSentence d;
     elFill_width := elFill_width d;
     elLabel := elLabel d;
     btnPlay_icon := btnPlay_icon d;
     btnPlay_title := btnPlay_title d;
     btnPlay_aria := btnPlay_aria d;
     btnPlay_disabled := btnPlay_disabled d;
     btnStop_disabled := btnStop_disabled d;
     btnRewind_disabled := btnRewind_disabled d;
     btnForward_disabled := btnForward_disabled d |}.

Definition set_elCover (c : cover_html) (d : Dom) : Dom :=
  {| readerView_hidden := readerView_hidden d;
     readerView_state := readerView_state d;
     main_hidden := main_hidden d;
     header_hidden := header_hidden d;
     elBookTitle := elBookTitle d;
     elCover := c;
     elChapter := elChapter d;
     elSentence := elSentence d;
     elFill_width := elFill_width d;
     elLabel := elLabel d;
     btnPlay_icon := btnPlay_icon d;
     btnPlay_title := btnPlay_title d;
     btnPlay_aria := btnPlay_aria d;
     btnPlay_disabled := btnPlay_disabled d;
     btnStop_disabled := btnStop_disabled d;
     btnRewind_disabled := btnRewind_disabled d;
     btnForward_disabled := btnForward_disabled d |}.

Definition set_text (chapter sentence : string) (d : Dom) : Dom :=
  {| readerView_hidden := readerView_hidden d;
     readerView_state := readerView_state d;
     main_hidden := main_hidden d;
     header_hidden := header_hidden d;
     elBookTitle := elBookTitle d;
     elCover := elCover d;
     elChapter := chapter;
     elSentence := sentence;
     elFill_width := elFill_width d;
     elLabel := elLabel d;
     btnPlay_icon := btnPlay_icon d;
     btnPlay_title := btnPlay_title d;
     btnPlay_aria := btnPlay_aria d;
     btnPlay_disabled := btnPlay_disabled d;
     btnStop_disabled := btnStop_disabled d;
     btnRewind_disabled := btnRewind_disabled d;
     btnForward_disabled := btnForward_disabled d |}.

Definition set_hidden (reader library : bool) (d : Dom) : Dom :=
  {| readerView_hidden := reader;
     readerView_state := readerView_state d;
     main_hidden := library;
     header_hidden := library;
     elBookTitle := elBookTitle d;
     elCover := elCover d;
     elChapter := elChapter d;
     elSentence := elSentence d;
     elFill_width := elFill_width d;
     elLabel := elLabel d;
     btnPlay_icon := btnPlay_icon d;
     btnPlay_title := btnPlay_title d;
     btnPlay_aria := btnPlay_aria d;
     btnPlay_disabled := btnPlay_disabled d;
     btnStop_disabled := btnStop_disabled d;
     btnRewind_disabled := btnRewind_disabled d;
     btnForward_disabled := btnForward_disabled d |}.

(** *** The engine the view drives *)

Definition handle := nat.

(** The methods of [TTSEngine] that [reader.js] calls. *)
Inductive method :=
  | MOpen (bookId : Z)
  | MPlay
  | MPause
  | MStop
  | MRewind
  | MForward
  | MDestroy.

(** How the promise of [engine.open(id)] settles; [message] is
    [err.message]. *)
Inductive settled :=
  | Resolved
  | Rejected (message : string).

(** [tts.js] is not part of the sources; the view depends on it through
    this interface only.  An engine instance has a state; the constructor
    and every method call may invoke the render callback any number of
    times before returning, and read and write the record store;
    asynchronous inputs (load results, narration signals, timers) do the
    same and may settle the promise of [open].  Method calls return
    normally. *)
Class Engine := {
  engine_t : Type;
  store_t : Type;
  signal_t : Type;
  e_new : engine_t * list RenderPayload;
  e_call : method → engine_t → store_t →
           engine_t * store_t * list RenderPayload;
  e_signal : signal_t → engine_t → store_t →
             engine_t * store_t * list RenderPayload * option settled
}.

(** What the module does that the properties below speak about, in the
    order it does it. *)
Inductive action :=
  | ANew (h : handle)                  (* new TTSEngine(_render) *)
  | ACall (h : handle) (m : method)    (* a method call on an engine *)
  | ARender (p : RenderPayload)        (* _render(p) *)
  | AAlert (msg : string)
  | APreventDefault.

(** A [keydown] event: [e.key], and whether
    [e.target.closest('input, textarea, select, button')] is an element. *)
Record KeyEvent := {
  key : string;
  target_in_control : bool
}.

Global Instance method_eq_dec : EqDecision method.
Proof. solve_decision. Defined.

Section view.
Context {E : Engine}.

(** The module state ([engine], [coverUrl], [lastState], [kbAbort]), the
    document, and the environment: whether ['speechSynthesis' in window],
    the engine objects constructed so far, the invocations of
    [openReader] suspended at [await engine.open(book.id)], the record
    store, the object URLs not yet revoked and the next fresh identity
    (of an engine, an object URL or an [AbortController]). *)
Record World := {
  engine : option handle;
  coverUrl : option nat;
  lastState : string;
  kbAbort : option nat;
  document : Dom;
  keydown_listener : option nat;
  speech_supported : bool;
  heap : gmap handle engine_t;
  awaiting : gset handle;
  store : store_t;
  object_urls : gset nat;
  next_id : nat;
  log : list action
}.

Definition set_engine (v : option handle) (w : World) : World :=
  {| engine := v;
     coverUrl := coverUrl w;
     lastState := lastState w;
     kbAbort := kbAbort w;
     document := document w;
     keydown_listener := keydown_listener w;
     speech_supported := speech_supported w;
     heap := heap w;
     awaiting := awaiting w;
     store := store w;
     object_urls := object_urls w;
     next_id := next_id w;
     log := log w |}.

Definition set_coverUrl (v : option nat) (w : World) : World :=
  {| engine := engine w;
     coverUrl := v;
     lastState := lastState w;
     kbAbort := kbAbort w;
     document := document w;
     keydown_listener := keydown_listener w;
     speech_supported := speech_supported w;
     heap := heap w;
     awaiting := awaiting w;
     store := store w;
     object_urls := object_urls w;
     next_id := next_id w;
     log := log w |}.

Definition set_lastState (v : string) (w : World) : World :=
  {| engine := engine w;
     coverUrl := coverUrl w;
     lastState := v;
     kbAbort := kbAbort w;
     document := document w;
     keydown_listener := keydown_listener w;
     speech_supported := speech_supported w;
     heap := heap w;
     awaiting := awaiting w;
     store := store w;
     object_urls := object_urls w;
     next_id := next_id w;
     log := log w |}.

Definition set_kbAbort (v : option nat) (w : World) : World :=
  {| engine := engine w;
     coverUrl := coverUrl w;
     lastState := lastState w;
     kbAbort := v;
     document := document w;
     keydown_listener := keydown_listener w;
     speech_supported := speech_supported w;
     heap := heap w;
     awaiting := awaiting w;
     store := store w;
     object_urls := object_urls w;
     next_id := next_id w;
     log := log w |}.

Definition set_document (v : Dom) (w : World) : World :=
  {| engine := engine w;
     coverUrl := coverUrl w;
     lastState := lastState w;
     kbAbort := kbAbort w;
     document := v;
     keydown_listener := keydown_listener w;
     speech_supported := speech_supported w;
     heap := heap w;
     awaiting := awaiting w;
     store := store w;
     object_urls := object_urls w;
     next_id := next_id w;
     log := log w |}.

Definition set_keydown_listener (v : option nat) (w : World) : World :=
  {| engine := engine w;
     coverUrl := coverUrl w;
     lastState := lastState w;
     kbAbort := kbAbort w;
     document := document w;
     keydown_listener := v;
     speech_supported := speech_supported w;
     heap := heap w;
     awaiting := awaiting w;
     store := store w;
     object_urls := object_urls w;
     next_id := next_id w;
     log := log w |}.

Definition set_heap (v : gmap handle engine_t) (w : World) : World :=
  {| engine := engine w;
     coverUrl := coverUrl w;
     lastState := lastState w;
     kbAbort := kbAbort w;
     document := document w;
     keydown_listener := keydown_listener w;
     speech_supported := speech_supported w;
     heap := v;
     awaiting := awaiting w;
     store := store w;
     object_urls := object_urls w;
     next_id := next_id w;
     log := log w |}.

Definition set_awaiting (v : gset handle) (w : World) : World :=
  {| engine := engine w;
     coverUrl := coverUrl w;
     lastState := lastState w;
     kbAbort := kbAbort w;
     document := document w;
     keydown_listener := keydown_listener w;
     speech_supported := speech_supported w;
     heap := heap w;
     awaiting := v;
     store := store w;
     object_urls := object_urls w;
     next_id := next_id w;
     log := log w |}.

Definition set_store (v : store_t) (w : World) : World :=
  {| engine := engine w;
     coverUrl := coverUrl w;
     lastState := lastState w;
     kbAbort := kbAbort w;
     document := document w;
     keydown_listener := keydown_listener w;
     speech_supported := speech_supported w;
     heap := heap w;
     awaiting := awaiting w;
     store := v;
     object_urls := object_urls w;
     next_id := next_id w;
     log := log w |}.

Definition set_object_urls (v : gset nat) (w : World) : World :=
  {| engine := engine w;
     coverUrl := coverUrl w;
     lastState := lastState w;
     kbAbort := kbAbort w;
     document := document w;
     keydown_listener := keydown_listener w;
     speech_supported := speech_supported w;
     heap := heap w;
     awaiting := awaiting w;
     store := store w;
     object_urls := v;
     next_id := next_id w;
     log := log w |}.

Definition set_next_id (v : nat) (w : World) : World :=
  {| engine := engine w;
     coverUrl := coverUrl w;
     lastState := lastState w;
     kbAbort := kbAbort w;
     document := document w;
     keydown_listener := keydown_listener w;
     speech_supported := speech_supported w;
     heap := heap w;
     awaiting := awaiting w;
     store := store w;
     object_urls := object_urls w;
     next_id := v;
     log := log w |}.

Definition set_log (v : list action) (w : World) : World :=
  {| engine := engine w;
     coverUrl := coverUrl w;
     lastState := lastState w;
     kbAbort := kbAbort w;
     document := document w;
     keydown_listener := keydown_listener w;
     speech_supported := speech_supported w;
     heap := heap w;
     awaiting := awaiting w;
     store := store w;
     object_urls := object_urls w;
     next_id := next_id w;
     log := v |}.

Definition add_log (a : action) (w : World) : World :=
  set_log (log w ++ [a]) w.

Definition _render (p : RenderPayload) (w : World) : World :=
  let w := add_log (ARender p) w in
  let w := set_lastState (state p) w in
  set_document (_render_dom p (document w)) w.

(** The engine invoking the callback it was constructed with. *)
Definition deliver (ps : list RenderPayload) (w : World) : World :=
  foldl (λ w p, _render p w) w ps.

(** A method call on the engine object [h]. *)
Definition invoke (h : handle) (m : method) (w : World) : World :=
  let w := add_log (ACall h m) w in
  match heap w !! h with
  | None => w
  | Some e =>
      let '(e', s', ps) := e_call m e (store w) in
      let w := set_heap (<[h := e']> (heap w)) w in
      let w := set_store s' w in
      deliver ps w
  end.

(** [engine?.m()] *)
Definition engine_opt (m : method) (w : World) : World :=
  match engine w with
  | Some h => invoke h m w
  | None => w
  end.

Definition _destroyEngine (w : World) : World :=
  let w := engine_opt MDestroy w in
  let w := set_engine None w in
  set_lastState "idle" w.

Definition _releaseCover (w : World) : World :=
  let w :=
    match coverUrl w with
    | Some u => set_coverUrl None (set_object_urls (object_urls w ∖ {[u]}) w)
    | None => w
    end in
  set_document (set_elCover CoverEmpty (document w)) w.

(** [document.addEventListener('keydown', _onKeyDown, { signal })]: a
    listener with the same type, callback and capture flag is not added a
    second time. *)
Definition add_keydown_listener (signal : nat) (w : World) : World :=
  match keydown_listener w with
  | Some _ => w
  | None => set_keydown_listener (Some signal) w
  end.

(** [controller.abort()] removes the listener added with its signal. *)
Definition abort (c : nat) (w : World) : World :=
  if bool_decide (keydown_listener w = Some c)
  then set_keydown_listener None w
  else w.

(** The blocks "Header", "Cover art" and "Show reader, hide library" of
    [openReader]. *)
Definition show_book (book : Db.Book) (w : World) : World :=
  let title := Db.b_title (Db.row book) in
  (* Header *)
  let w := set_document (set_elBookTitle title (document w)) w in
  (* Cover art *)
  let w :=
    match Db.b_coverBlob (Db.row book) with
    | Some _ =>
        let u := next_id w in
        let w := set_next_id (S u) w in
        let w := set_object_urls ({[u]} ∪ object_urls w) w in
        let w := set_coverUrl (Some u) w in
        set_document (set_elCover (CoverImg u title) (document w)) w
    | None => set_document (set_elCover (CoverPlaceholder title) (document w)) w
    end in
  (* Show reader, hide library *)
  set_document (set_hidden false true (document w)) w.

(** The block "Keyboard shortcuts" of [openReader]. *)
Definition listen_keys (w : World) : World :=
  let c := next_id w in
  let w := set_next_id (S c) w in
  let w := set_kbAbort (Some c) w in
  add_keydown_listener c w.

(** The block "Start engine" of [openReader], up to
    [await engine.open(book.id)]. *)
Definition start_engine (book : Db.Book) (w : World) : World :=
  let h := next_id w in
  let w := set_next_id (S h) w in
  let w := add_log (ANew h) w in
  let w := set_heap (<[h := e_new.1]> (heap w)) w in
  let w := deliver e_new.2 w in
  let w := set_engine (Some h) w in
  let w := invoke h (MOpen (Db.id book)) w in
  set_awaiting ({[h]} ∪ awaiting w) w.

(** [openReader(book)] up to [await engine.open(book.id)]. *)
Definition openReader (book : Db.Book) (w : World) : World :=
  let w := _destroyEngine w in
  let w := _releaseCover w in
  if negb (speech_supported w) then
    add_log (AAlert "Text-to-speech is not supported in this browser.") w
  else
    let w := show_book book w in
    (* Reset UI to loading state *)
    let w := _render loading_payload w in
    let w := listen_keys w in
    start_engine book w.

(** The rest of [openReader] once the promise of [engine.open] of the
    engine [h] has settled: nothing when it resolved, the [catch] block
    when it rejected. *)
Definition openReader_resume (h : handle) (r : settled) (w : World) : World :=
  if bool_decide (h ∈ awaiting w) then
    let w := set_awaiting (awaiting w ∖ {[h]}) w in
    match r with
    | Resolved => w
    | Rejected msg => set_document (set_text "Failed to load book" msg (document w)) w
    end
  else w.

Definition closeReader (w : World) : World :=
  let w := engine_opt MStop w in
  let w := _destroyEngine w in
  let w := _releaseCover w in
  let w := match kbAbort w with Some c => abort c w | None => w end in
  let w := set_kbAbort None w in
  set_document (set_hidden true false (document w)) w.

(** The click listener of [btnPlay]. *)
Definition onPlayClick (w : World) : World :=
  match engine w with
  | None => w
  | Some h =>
      if String.eqb (lastState w) "playing" then invoke h MPause w
      else invoke h MPlay w
  end.

Definition _onKeyDown (e : KeyEvent) (w : World) : World :=
  if target_in_control e then w
  else if String.eqb (key e) " " then
    let w := add_log APreventDefault w in
    if String.eqb (lastState w) "playing" then engine_opt MPause w
    else engine_opt MPlay w
  else if String.eqb (key e) "ArrowLeft" then
    engine_opt MRewind (add_log APreventDefault w)
  else if String.eqb (key e) "ArrowRight" then
    engine_opt MForward (add_log APreventDefault w)
  else if String.eqb (key e) "Escape" then closeReader w
  else w.

(** An asynchronous input reaching the engine object [h]. *)
Definition signal (h : handle) (s : signal_t) (w : World) : World :=
  match heap w !! h with
  | None => w
  | Some e =>
      let '(e', s', ps, r) := e_signal s e (store w) in
      let w := set_heap (<[h := e']> (heap w)) w in
      let w := set_store s' w in
      let w := deliver ps w in
      match r with
      | Some r => openReader_resume h r w
      | None => w
      end
  end.

(** What can happen to the module: a call of one of its two exports, a
    listener it registered running on an event, or an asynchronous input
    to one of the engines. *)
Inductive event :=
  | EvOpenReader (book : Db.Book)
  | EvCloseReader
  | EvBack
  | EvPlay
  | EvStop
  | EvRewind
  | EvForward
  | EvKeyDown (e : KeyEvent)
  | EvSignal (h : handle) (s : signal_t).

(** The listener of each event, run on the state.  The page delivers a
    click only to a button that is not disabled, and a key only while the
    keydown listener is registered; [step] runs the listener in every
    state, so the histories of [run] include those of the page. *)
Definition step (w : World) (ev : event) : World :=
  match ev with
  | EvOpenReader book => openReader book w
  | EvCloseReader => closeReader w
  | EvBack => closeReader w
  | EvPlay => onPlayClick w
  | EvStop => engine_opt MStop w
  | EvRewind => engine_opt MRewind w
  | EvForward => engine_opt MForward w
  | EvKeyDown e => _onKeyDown e w
  | EvSignal h s => signal h s w
  end.

(** The module as the page loads it, in a document [d]. *)
Definition init (d : Dom) (supported : bool) (s : store_t) : World :=
  {| engine := None; coverUrl := None; lastState := "idle"; kbAbort := None;
     document := d; keydown_listener := None; speech_supported := supported;
     heap := ∅; awaiting := ∅; store := s; object_urls := ∅; next_id := 0;
     log := [] |}.

Definition run (w : World) (evs : list event) : World := foldl step w evs.

(** *** Reading the log *)

(** The engines constructed and not yet destroyed. *)
Definition live_step (s : gset handle) (a : action) : gset handle :=
  match a with
  | ANew h => {[h]} ∪ s
  | ACall h MDestroy => s ∖ {[h]}
  | _ => s
  end.

Definition live_of (l : list action) : gset handle := foldl live_step ∅ l.

(** At no point of a log are two engines live. *)
Definition one_at_a_time (l : list action) : Prop :=
  ∀ k, size (live_of (take k l)) ≤ 1.

(** The engine the variable [engine] holds, as a set. *)
Definition held (o : option handle) : gset handle :=
  match o with Some h => {[h]} | None => ∅ end.

(** The state of the payload of the last [_render]. *)
Definition last_rendered (l : list action) : option string :=
  foldl (λ o a, match a with ARender p => Some (state p) | _ => o end) None l.

Definition engine_calls (l : list action) : list (handle * method) :=
  omap (λ a, match a with ACall h m => Some (h, m) | _ => None end) l.

(** What an operation appended to the log. *)
Definition appended (w w' : World) : list action :=
  drop (length (log w)) (log w').

(** A render, and a call other than [destroy], change nothing about who
    is live. *)
Definition neutral (a : action) : Prop :=
  match a with ANew _ | ACall _ MDestroy => False | _ => True end.

(** The invariant between two events: the log never had two live
    engines, and the live engine is the one [engine] holds. *)
Definition engine_inv (w : World) : Prop :=
  one_at_a_time (log w) ∧ live_of (log w) = held (engine w).

(** [lastState] is the state of the last payload rendered. *)
Definition synced (w : World) : Prop :=
  last_rendered (log w) = Some (lastState w).

(** Whenever an engine is held, [lastState] is the last rendered state. *)
Definition state_inv (w : World) : Prop := engine w ≠ None → synced w.

(** The engine held is one of the engines constructed. *)
Definition heap_inv (w : World) : Prop :=
  ∀ h, engine w = Some h → is_Some (heap w !! h).

End view.

End Reader.

(** ** The narration engine (section 4.7 of the specification) *)

Module TTS.

(** Modelled from the spec: the states of the engine of section 4.7,
    [tts.js] not being part of the sources. *)
Inductive estate := Idle | Loading | Stopped | Playing | Paused | Error.

(** Modelled from the spec: the state as the render payload names it. *)
Definition state_name (s : estate) : string :=
  match s with
  | Idle => "idle"
  | Loading => "loading"
  | Stopped => "stopped"
  | Playing => "playing"
  | Paused => "paused"
  | Error => "error"
  end.

(** Modelled from the spec: the state of one [TTSEngine] ([tts.js] is not
    part of the sources): the state of section 4.7, the book and its
    chapters once loaded, the cursor, and the generation token of
    section 5 that fences stale signals. *)
Record t := {
  st : estate;
  book : option Z;
  chapters : list Db.ChapterRow;
  chap : nat;
  sent : nat;
  gen : nat
}.

(** Modelled from the spec: the asynchronous inputs of the engine, each
    tagged with the generation of the request it answers: the chapters
    and the position of [open] have been fetched, fetching them failed,
    the narration capability signalled "sentence complete". *)
Inductive signal :=
  | Loaded (g : nat)
  | LoadFailed (g : nat) (message : string)
  | SentenceEnded (g : nat).

(** Modelled from the spec: a fresh engine is [idle], with no book. *)
Definition new : t :=
  {| st := Idle; book := None; chapters := []; chap := 0; sent := 0;
     gen := 0 |}.

Definition current_sentences (e : t) : list string :=
  from_option Db.sentences [] (chapters e !! chap e).

(** Modelled from the spec: the render notification of section 4.7, in the
    fields [_render] reads it through. *)
Definition payload (e : t) : Reader.RenderPayload :=
  {| Reader.state := state_name (st e);
     Reader.chapIdx := Z.of_nat (chap e);
     Reader.sentIdx := Z.of_nat (sent e);
     Reader.totalChapters := Z.of_nat (length (chapters e));
     Reader.chapterTitle := from_option Db.title "" (chapters e !! chap e);
     Reader.currentSentence := default "" (current_sentences e !! sent e) |}.

(** Modelled from the spec: a transition to state [s] and cursor
    [(c, i)]; it cancels the outstanding request by moving to the next
    generation (section 5). *)
Definition move (s : estate) (c i : nat) (e : t) : t :=
  {| st := s; book := book e; chapters := chapters e; chap := c; sent := i;
     gen := S (gen e) |}.

(** Modelled from the spec: the cursor is written as the position of the
    book, through [putPosition]. *)
Definition persist (e : t) (s : Store.t) : Store.t :=
  match book e with
  | Some b => Store.putPosition b (Z.of_nat (chap e), Z.of_nat (sent e)) s
  | None => s
  end.

(** Modelled from the spec: the "ready" states of section 4.7. *)
Definition is_ready (s : estate) : bool :=
  match s with Stopped | Playing | Paused => true | _ => false end.

Definition result : Type := t * Store.t * list Reader.RenderPayload.

(** Modelled from the spec: "every transition invokes a render
    notification". *)
Definition goto (e : t) (s : Store.t) : result := (e, s, [payload e]).

(** No transition: nothing is rendered. *)
Definition stay (e : t) (s : Store.t) : result := (e, s, []).

(** Modelled from the spec: the transitions of section 4.7 for the methods
    the reader calls.  [stop] and [pause] persist the cursor (sections 4.7
    and 5); [destroy] does not write the position; a method called in a
    state its transition does not start from is a no-op, and so is
    [play] on a book with no chapters. *)
Definition call (m : Reader.method) (e : t) (s : Store.t) : result :=
  match m with
  | Reader.MOpen b =>
      goto {| st := Loading; book := Some b; chapters := []; chap := 0;
              sent := 0; gen := S (gen e) |} s
  | Reader.MPlay =>
      match st e, chapters e with
      | (Stopped | Paused), _ :: _ => goto (move Playing (chap e) (sent e) e) s
      | _, _ => stay e s
      end
  | Reader.MPause =>
      match st e with
      | Playing => goto (move Paused (chap e) (sent e) e) (persist e s)
      | _ => stay e s
      end
  | Reader.MStop =>
      match st e with
      | Playing | Paused =>
          goto (move Stopped (chap e) (sent e) e) (persist e s)
      | _ => stay e s
      end
  | Reader.MRewind =>
      if is_ready (st e) then goto (move (st e) (chap e) 0 e) s
      else stay e s
  | Reader.MForward =>
      if is_ready (st e) && bool_decide (S (chap e) < length (chapters e))
      then goto (move (st e) (S (chap e)) 0 e) s
      else stay e s
  | Reader.MDestroy =>
      goto {| st := Idle; book := None; chapters := []; chap := 0; sent := 0;
              gen := S (gen e) |} s
  end.

(** Modelled from the spec: "sentence complete" while playing: the next
    sentence, else the first sentence of the next chapter, else the book
    is complete: stopped, with the position persisted at the final
    sentence. *)
Definition advance (e : t) (s : Store.t) : result :=
  if bool_decide (S (sent e) < length (current_sentences e))
  then goto (move Playing (chap e) (S (sent e)) e) s
  else if bool_decide (S (chap e) < length (chapters e))
  then goto (move Playing (S (chap e)) 0 e) s
  else goto (move Stopped (chap e) (sent e) e) (persist e s).

(** Modelled from the spec: the asynchronous inputs.  A signal whose
    generation is not the current one is discarded (section 5).  The load
    of [open] ends in [stopped] at the persisted position, or [(0,0)] if
    there is none, and resolves the promise; a failed load ends in
    [error] and rejects it. *)
Definition react (sg : signal) (e : t) (s : Store.t)
  : result * option Reader.settled :=
  match sg with
  | Loaded g =>
      match st e, book e with
      | Loading, Some b =>
          if bool_decide (g = gen e) then
            let pos := default (0, 0)%Z (Store.getPosition b s) in
            (goto {| st := Stopped; book := Some b;
                     chapters := Store.getChapters b s;
                     chap := Z.to_nat pos.1; sent := Z.to_nat pos.2;
                     gen := gen e |} s,
             Some Reader.Resolved)
          else (stay e s, None)
      | _, _ => (stay e s, None)
      end
  | LoadFailed g msg =>
      match st e with
      | Loading =>
          if bool_decide (g = gen e)
          then (goto (move Error (chap e) (sent e) e) s,
                Some (Reader.Rejected msg))
          else (stay e s, None)
      | _ => (stay e s, None)
      end
  | SentenceEnded g =>
      match st e with
      | Playing =>
          if bool_decide (g = gen e) then (advance e s, None)
          else (stay e s, None)
      | _ => (stay e s, None)
      end
  end.

Global Instance engine : Reader.Engine :=
  {| Reader.engine_t := t;
     Reader.store_t := Store.t;
     Reader.signal_t := signal;
     Reader.e_new := (new, []);
     Reader.e_call := call;
     Reader.e_signal := react |}.

End TTS.

(** ** The book cards of the library grid *)

Module BookCard.

(** The record store, the grid ([cards]: the [data-id] of the
    [.book-card] elements in document order), the [_objectUrls] map, the
    object URLs not yet revoked, the [hidden] class of the grid and of the
    empty state, and what [showToast] and [console.error] were given. *)
Record World := {
  store : Store.t;
  cards : list Z;
  _objectUrls : gmap Z nat;
  object_urls : gset nat;
  grid_hidden : bool;
  empty_hidden : bool;
  toasts : list (string * string);
  console : list string
}.

(** Whether each of the three promises given to [Promise.all] fulfils. *)
Record Outcomes := {
  books_delete_ok : bool;          (* db.books.delete(book.id) *)
  chapters_delete_ok : bool;       (* db.chapters.where('bookId')... *)
  deleteBook_ok : bool             (* deleteBook(book.id) *)
}.

Definition all_ok (o : Outcomes) : bool :=
  books_delete_ok o && chapters_delete_ok o && deleteBook_ok o.

(** The three deletions; one that rejects leaves its data in place. *)
Definition deletions (id : Z) (o : Outcomes) (s : Store.t) : Store.t :=
  let s :=
    if books_delete_ok o
    then Store.set_books (Db.table_delete id (Db.books (Store.db s))) s
    else s in
  let s :=
    if chapters_delete_ok o
    then Store.set_chapters
           (Db.table_delete_where Db.bookId id (Db.chapters (Store.db s))) s
    else s in
  if deleteBook_ok o then Store.deleteBook id s else s.

(** [document.querySelector(`.book-card[data-id="${id}"]`)?.remove()]:
    the first card with that id, if any, leaves the document. *)
Fixpoint remove_card (id : Z) (l : list Z) : list Z :=
  match l with
  | [] => []
  | x :: l => if bool_decide (x = id) then l else x :: remove_card id l
  end.

Definition updateEmptyState (w : World) : World :=
  let hasBooks := bool_decide (0 < length (cards w)) in
  {| store := store w; cards := cards w; _objectUrls := _objectUrls w;
     object_urls := object_urls w;
     grid_hidden := negb hasBooks; empty_hidden := hasBooks;
     toasts := toasts w; console := console w |}.

Definition showToast (message kind : string) (w : World) : World :=
  {| store := store w; cards := cards w; _objectUrls := _objectUrls w;
     object_urls := object_urls w;
     grid_hidden := grid_hidden w; empty_hidden := empty_hidden w;
     toasts := toasts w ++ [(message, kind)]; console := console w |}.

Definition console_error (message : string) (w : World) : World :=
  {| store := store w; cards := cards w; _objectUrls := _objectUrls w;
     object_urls := object_urls w;
     grid_hidden := grid_hidden w; empty_hidden := empty_hidden w;
     toasts := toasts w; console := console w ++ [message] |}.

(** [const url = _objectUrls.get(id);
     if (url) { URL.revokeObjectURL(url); _objectUrls.delete(id); }] *)
Definition revoke_card_url (id : Z) (w : World) : World :=
  match _objectUrls w !! id with
  | Some url =>
      {| store := store w; cards := cards w;
         _objectUrls := delete id (_objectUrls w);
         object_urls := object_urls w ∖ {[url]};
         grid_hidden := grid_hidden w; empty_hidden := empty_hidden w;
         toasts := toasts w; console := console w |}
  | None => w
  end.

Definition remove_card_element (id : Z) (w : World) : World :=
  {| store := store w; cards := remove_card id (cards w);
     _objectUrls := _objectUrls w; object_urls := object_urls w;
     grid_hidden := grid_hidden w; empty_hidden := empty_hidden w;
     toasts := toasts w; console := console w |}.

Definition set_store (s : Store.t) (w : World) : World :=
  {| store := s; cards := cards w; _objectUrls := _objectUrls w;
     object_urls := object_urls w;
     grid_hidden := grid_hidden w; empty_hidden := empty_hidden w;
     toasts := toasts w; console := console w |}.

(** [confirmRemove(book)]; [confirmed] is what [confirm(...)] returned,
    [o] how the three deletions end.  [Promise.all] rejects, and the
    [catch] block runs, as soon as one of them rejects. *)
Definition confirmRemove (book : Db.Book) (confirmed : bool) (o : Outcomes)
    (w : World) : World :=
  if negb confirmed then w
  else
    let id := Db.id book in
    let w := set_store (deletions id o (store w)) w in
    if all_ok o then
      let w := revoke_card_url id w in
      let w := remove_card_element id w in
      let w := updateEmptyState w in
      showToast "Book removed from library" "success" w
    else
      let w := console_error "Failed to remove book" w in
      showToast "Failed to remove book" "error" w.

End BookCard.

(** ** Sample data *)

Module Sample.

Definition book : Db.Book :=
  {| Db.id := 7;
     Db.row := {| Db.b_title := "Moby-Dick"; Db.b_author := "Herman Melville";
                  Db.b_filename := "moby-dick.epub"; Db.b_fileSize := 1024;
                  Db.b_addedAt := 0; Db.b_coverBlob := None;
                  Db.b_chapterCount := 1 |} |}.

(** The store after the import of [book]: one chapter of three sentences,
    and a position saved at its second sentence. *)
Definition store : Store.t :=
  Store.putPosition 7 (0, 1)%Z
    (Store.putChapters 7
       [{| Store.c_title := "Loomings"; Store.c_href := "chapter1.xhtml";
           Store.c_sentences :=
             ["Call me Ishmael."; "Some years ago I went to sea.";
              "It is a way I have."] |}]
       Store.empty).

(** The page with the reader module loaded, in a browser that supports
    speech synthesis. *)
Definition page : @Reader.World TTS.engine :=
  Reader.init Reader.blank true store.

(** The book is opened, its load completes, and play is clicked. *)
Definition playing : @Reader.World TTS.engine :=
  Reader.run page
    [Reader.EvOpenReader book; Reader.EvSignal 1 (TTS.Loaded 1);
     Reader.EvPlay].


End Sample.

(** ** What the reader keeps between events *)

Module Lifecycle.
Import Reader.

Section lifecycle.
Context {E : Engine}.

(** The object URL the variable [coverUrl] holds, as a set. *)
Definition cover_set (o : option nat) : gset nat :=
  match o with Some u => {[u]} | None => ∅ end.

(** The nodes [_render] does not write: the three [hidden] classes, the
    book title and the cover. *)
Definition chrome (d : Dom)
  : bool * bool * bool * string * cover_html :=
  (readerView_hidden d, main_hidden d, header_hidden d, elBookTitle d,
   elCover d).

(** What neither the engine nor [_render] can change: the cover URL, the
    object URLs not revoked, the keyboard listener and its controller,
    the browser, and the nodes [_render] does not write. *)
Definition frame (w : World) :=
  (coverUrl w, object_urls w, kbAbort w, keydown_listener w,
   speech_supported w, chrome (document w)).

(** [if (coverUrl) { URL.revokeObjectURL(coverUrl); ... }] on the set of
    object URLs. *)
Definition revoke_cover (c : option nat) (urls : gset nat) : gset nat :=
  match c with Some u => urls ∖ {[u]} | None => urls end.

(** The frame after the tail of [closeReader]: the cover URL is revoked,
    the listener added with the signal of [kbAbort] is removed, and the
    library is shown. *)
Definition closed_frame
    (fr : option nat * gset nat * option nat * option nat * bool
          * (bool * bool * bool * string * cover_html)) :=
  let '(c, urls, kb, l, sup, (_, _, _, title, _)) := fr in
  (None : option nat, revoke_cover c urls, None : option nat,
   match kb with
   | Some k => if bool_decide (l = Some k) then None else l
   | None => l
   end, sup, (true, false, false, title, CoverEmpty)).

(** The frame after [openReader] in a browser without speech synthesis:
    only the cover is released. *)
Definition released_frame
    (fr : option nat * gset nat * option nat * option nat * bool
          * (bool * bool * bool * string * cover_html)) :=
  let '(c, urls, kb, l, sup, (rh, mh, hh, title, _)) := fr in
  (None : option nat, revoke_cover c urls, kb, l, sup,
   (rh, mh, hh, title, CoverEmpty)).

(** The frame after [openReader] of [book] in a browser with speech
    synthesis, [n] being the next fresh identity. *)
Definition opened_frame (book : Db.Book) (n : nat)
    (fr : option nat * gset nat * option nat * option nat * bool
          * (bool * bool * bool * string * cover_html)) :=
  let '(c, urls, kb, l, sup, _) := fr in
  let title := Db.b_title (Db.row book) in
  match Db.b_coverBlob (Db.row book) with
  | Some _ =>
      (Some n, {[n]} ∪ revoke_cover c urls, Some (S n),
       match l with Some x => Some x | None => Some (S n) end, sup,
       (false, true, true, title, CoverImg n title))
  | None =>
      (None, revoke_cover c urls, Some n,
       match l with Some x => Some x | None => Some n end, sup,
       (false, true, true, title, CoverPlaceholder title))
  end.

(** The object URLs created and not revoked are the one [coverUrl]
    holds. *)
Definition cover_inv (w : World) : Prop :=
  object_urls w = cover_set (coverUrl w).

(** A cover image shown is the image of the URL [coverUrl] holds. *)
Definition cover_shown_inv (w : World) : Prop :=
  ∀ u t, elCover (document w) = CoverImg u t → coverUrl w = Some u.

(** The play button and [readerView.dataset.state] show [lastState]. *)
Definition play_face (w : World) : Prop :=
  btnPlay_icon (document w)
  = (if String.eqb (lastState w) "playing" then IconPause else IconPlay)
  ∧ btnPlay_title (document w)
    = (if String.eqb (lastState w) "playing" then "Pause" else "Play")
  ∧ btnPlay_aria (document w) = btnPlay_title (document w)
  ∧ readerView_state (document w) = lastState w.

Definition face_inv (w : World) : Prop := engine w ≠ None → play_face w.

(** The reader is shown and the library hidden. *)
Definition reader_shown (d : Dom) : Prop :=
  readerView_hidden d = false ∧ main_hidden d = true
  ∧ header_hidden d = true.

(** The library is shown and the reader hidden. *)
Definition library_shown (d : Dom) : Prop :=
  readerView_hidden d = true ∧ main_hidden d = false
  ∧ header_hidden d = false.

(** Every method call in [l] is on an engine that is live at that point,
    [s] being the engines live before [l]. *)
Fixpoint calls_ok (s : gset handle) (l : list action) : Prop :=
  match l with
  | [] => True
  | a :: l =>
      match a with ACall h _ => h ∈ s | _ => True end
      ∧ calls_ok (live_step s a) l
  end.

(** The keyboard listener, if registered, is the one [kbAbort] removes. *)
Definition kb_ok (w : World) : Prop :=
  keydown_listener w = None ∨ keydown_listener w = kbAbort w.

Definition is_open (ev : event) : bool :=
  match ev with EvOpenReader _ => true | _ => false end.

(** The events a control of the reader raises: a click on one of its
    buttons, a key, or a call of [closeReader]. *)
Definition is_control (ev : event) : bool :=
  match ev with EvOpenReader _ | EvSignal _ _ => false | _ => true end.

(** Between two events: an engine held means the reader is shown and the
    keyboard listener registered; no engine means the library is shown,
    if it was when the page loaded ([lib0]); and no engine is held where
    speech synthesis is missing. *)
Definition vis_inv (lib0 : Prop) (w : World) : Prop :=
  (engine w ≠ None →
   reader_shown (document w) ∧ keydown_listener w ≠ None ∧ kbAbort w ≠ None)
  ∧ (lib0 → engine w = None → library_shown (document w))
  ∧ (speech_supported w = false → engine w = None).

(** [w'] continues [w]: its log is the log of [w] and then actions whose
    method calls are on an engine live at that point, and the engine live
    at the end is the one [engine] holds in [w']. *)
Definition continues (w w' : World) : Prop :=
  ∃ l, log w' = log w ++ l
       ∧ calls_ok (held (engine w)) l
       ∧ foldl live_step (held (engine w)) l = held (engine w').

Definition calls_inv (w : World) : Prop :=
  calls_ok ∅ (log w) ∧ live_of (log w) = held (engine w).

(** The events that neither open nor close the reader: all but
    [openReader], [closeReader], the back button and an Escape key that
    [_onKeyDown] does not ignore. *)
Definition is_quiet (ev : event) : bool :=
  match ev with
  | EvOpenReader _ | EvCloseReader | EvBack => false
  | EvKeyDown e => target_in_control e || negb (String.eqb (key e) "Escape")
  | _ => true
  end.

(** The messages of the alerts in a log. *)
Definition alerts (l : list action) : list string :=
  omap (λ a, match a with AAlert msg => Some msg | _ => None end) l.

(** The renders in a log. *)
Definition renders (l : list action) : list RenderPayload :=
  omap (λ a, match a with ARender p => Some p | _ => None end) l.

Definition opens (evs : list event) : nat :=
  length (List.filter is_open evs).

(** An alert or a [preventDefault]. *)
Definition notice (a : action) : Prop :=
  match a with AAlert _ | APreventDefault => True | _ => False end.

(** Where speech synthesis is missing: no engine is held, none was ever
    constructed, and the log holds alerts and [preventDefault]s only. *)
Definition unsupported_inv (w : World) : Prop :=
  speech_supported w = false ∧ engine w = None ∧ heap w = ∅
  ∧ Forall notice (log w).

(** The controller the keyboard listener was registered with was created
    before now. *)
Definition listener_fresh (w : World) : Prop :=
  ∀ c, keydown_listener w = Some c → c < next_id w.

End lifecycle.

End Lifecycle.

(** ** A book with a cover *)

Module Shelf.

Definition illustrated : Db.Book :=
  {| Db.id := 8;
     Db.row := {| Db.b_title := "Alice"; Db.b_author := "Lewis Carroll";
                  Db.b_filename := "alice.epub"; Db.b_fileSize := 2048;
                  Db.b_addedAt := 1; Db.b_coverBlob := Some 0;
                  Db.b_chapterCount := 12 |} |}.

End Shelf.

(** ** Creating the book cards *)

Module Cards.
Import BookCard.

(** The markup [buildCoverHtml] returns: the [<img>] of an object URL, or
    the placeholder built from the title (its gradient, letter and snippet
    are functions of the title, from [utils.js]). *)
Inductive cover_markup :=
  | CoverImage (url : nat) (title : string)
  | CoverLetter (title : string).

(** The card element: [dataset.id], the cover, the title, the author and
    the chapter label, which is present when [chapterCount > 0]. *)
Record Card := {
  data_id : Z;
  cover_wrap : cover_markup;
  book_title : string;
  book_author : string;
  book_chapters : option Z
}.

(** [_objectUrls.set(id, url)] for a URL just created. *)
Definition register_url (id : Z) (url : nat) (w : World) : World :=
  {| store := store w; cards := cards w;
     _objectUrls := <[id := url]> (_objectUrls w);
     object_urls := {[url]} ∪ object_urls w;
     grid_hidden := grid_hidden w; empty_hidden := empty_hidden w;
     toasts := toasts w; console := console w |}.

(** [buildCoverHtml(book)]; [url] is what [URL.createObjectURL] returns
    when it is called. *)
Definition buildCoverHtml (url : nat) (book : Db.Book) (w : World)
  : cover_markup * World :=
  match Db.b_coverBlob (Db.row book) with
  | Some _ =>
      (CoverImage url (Db.b_title (Db.row book)),
       register_url (Db.id book) url w)
  | None => (CoverLetter (Db.b_title (Db.row book)), w)
  end.

(** [createBookCard(book)]: the card it returns; the caller puts it into
    the grid. *)
Definition createBookCard (url : nat) (book : Db.Book) (w : World)
  : Card * World :=
  let chapterLabel :=
    if (0 <? Db.b_chapterCount (Db.row book))%Z
    then Some (Db.b_chapterCount (Db.row book)) else None in
  let '(cover, w) := buildCoverHtml url book w in
  ({| data_id := Db.id book; cover_wrap := cover;
      book_title := Db.b_title (Db.row book);
      book_author := Db.b_author (Db.row book);
      book_chapters := chapterLabel |}, w).

(** What happens to the cards: [createBookCard] is called, or the remove
    button of a card is clicked, which calls [confirmRemove] with the
    book of the card. *)
Inductive op :=
  | Create (url : nat) (book : Db.Book)
  | ClickRemove (book : Db.Book) (confirmed : bool) (o : Outcomes).

Definition apply (w : World) (o : op) : World :=
  match o with
  | Create url book => (createBookCard url book w).2
  | ClickRemove book confirmed o => confirmRemove book confirmed o w
  end.

Definition run (w : World) (ops : list op) : World := foldl apply w ops.

(** A URL [URL.createObjectURL] returns is not one that is alive. *)
Fixpoint urls_fresh (w : World) (ops : list op) : Prop :=
  match ops with
  | [] => True
  | o :: ops =>
      match o with
      | Create url book =>
          Db.b_coverBlob (Db.row book) ≠ None → url ∉ object_urls w
      | ClickRemove _ _ _ => True
      end
      ∧ urls_fresh (apply w o) ops
  end.

(** The URLs in [_objectUrls] are alive, and no two books share one. *)
Definition urls_inv (w : World) : Prop :=
  (∀ id u, _objectUrls w !! id = Some u → u ∈ object_urls w)
  ∧ (∀ id1 id2 u,
       _objectUrls w !! id1 = Some u → _objectUrls w !! id2 = Some u →
       id1 = id2).

(** The URL [u] is alive and no book has it in [_objectUrls]. *)
Definition stranded (u : nat) (w : World) : Prop :=
  u ∈ object_urls w ∧ ∀ id, _objectUrls w !! id ≠ Some u.

End Cards.

(** * Properties *)

Import Reader.

(** ** The render function *)

Section render.
Context {E : Engine}.

Lemma dom_render p (w : World) : document (_render p w) = _render_dom p (document w).
Proof. reflexivity. Qed.

Lemma log_render p (w : World) : log (_render p w) = log w ++ [ARender p].
Proof. reflexivity. Qed.

Lemma controls_disabled p d :
  totalChapters p = 0%Z →
  let d' := _render_dom p d in
  btnPlay_disabled d' = true
  ∧ btnStop_disabled d' = true
  ∧ btnRewind_disabled d' = true
  ∧ btnForward_disabled d' = true.
Proof.
  intros Htotal. unfold _render_dom; simpl. rewrite Htotal. simpl.
  rewrite !andb_false_r. done.
Qed.

(** C2: a payload with [totalChapters = 0] in a state other than
    ['loading'] makes the reader show "No chapters found" as the chapter
    text and disables play, stop, rewind and forward. *)
Theorem render_no_chapters (p : RenderPayload) (w : World) :
  totalChapters p = 0%Z →
  state p ≠ "loading" →
  let d := document (_render p w) in
  elChapter d = "No chapters found"
  ∧ btnPlay_disabled d = true
  ∧ btnStop_disabled d = true
  ∧ btnRewind_disabled d = true
  ∧ btnForward_disabled d = true.
Proof.
  intros Htotal Hstate d. subst d. rewrite dom_render.
  split; [|by apply controls_disabled].
  unfold _render_dom; simpl. rewrite Htotal.
  apply String.eqb_neq in Hstate. by rewrite Hstate.
Qed.

End render.

Lemma render_no_chapters_witness :
  let p := {| state := "stopped"; chapIdx := 0; sentIdx := 0;
              totalChapters := 0; chapterTitle := "";
              currentSentence := "" |} in
  let d := document (_render p (init (E:=TTS.engine) blank true Store.empty)) in
  elChapter d = "No chapters found"
  ∧ btnPlay_disabled d = true
  ∧ btnStop_disabled d = true
  ∧ btnRewind_disabled d = true
  ∧ btnForward_disabled d = true.
Proof.
  intros p d. apply (render_no_chapters (E:=TTS.engine) p); [reflexivity|].
  simpl. discriminate.
Defined.

(** ** The shape of the render payload *)










(** ** The tokenizer *)

(** C4: the two sample texts of section 8 are split into two and three
    sentences: nothing is split at "Dr." or inside "3.14", and the
    ellipsis and "?!" end their sentences whole. *)
Theorem tokenize_samples :
  Tokenizer.tokenize "Dr. Smith arrived at 3.14pm. He left."
    = ["Dr. Smith arrived at 3.14pm."; "He left."]
  ∧ Tokenizer.tokenize "Wait... really?! Yes."
    = ["Wait..."; "really?!"; "Yes."].
Proof. split; vm_compute; reflexivity. Qed.

(** ** Removing a book *)

Section remove.
Import BookCard.

Lemma store_confirmRemove book o w :
  store (confirmRemove book true o w) = deletions (Db.id book) o (store w).
Proof.
  unfold confirmRemove; simpl. destruct (all_ok o); [|reflexivity].
  unfold revoke_card_url; simpl. by destruct (_objectUrls w !! Db.id book).
Qed.

Lemma all_ok_true o :
  all_ok o = true ↔
  books_delete_ok o = true ∧ chapters_delete_ok o = true
  ∧ deleteBook_ok o = true.
Proof. unfold all_ok. rewrite !andb_true_iff. tauto. Qed.

Lemma all_ok_false o :
  all_ok o = false ↔
  books_delete_ok o = false ∨ chapters_delete_ok o = false
  ∨ deleteBook_ok o = false.
Proof. unfold all_ok. rewrite !andb_false_iff. tauto. Qed.

(** C3: a confirmed removal whose deletions all succeed leaves no record
    of the book, no chapter record with its id as [bookId], no stored
    file and no persisted position. *)
Theorem remove_cascades (book : Db.Book) (o : Outcomes) (w : World) :
  all_ok o = true →
  let s := store (confirmRemove book true o w) in
  Db.rows (Db.books (Store.db s)) !! Db.id book = None
  ∧ (∀ k r, Db.rows (Db.chapters (Store.db s)) !! k = Some r →
            Db.bookId r ≠ Db.id book)
  ∧ (Db.id book ∉ Store.files s)
  ∧ Store.getPosition (Db.id book) s = None.
Proof.
  intros Hok s. subst s. rewrite store_confirmRemove.
  apply all_ok_true in Hok as (Hb & Hc & Hd).
  unfold deletions. rewrite Hb, Hc, Hd. simpl.
  split; [apply lookup_delete_eq|].
  split; [|split; [apply not_elem_of_difference; right; by apply elem_of_singleton
                  | apply lookup_delete_eq]].
  intros k r Hr. apply map_lookup_filter_Some in Hr as [_ Hne]. exact Hne.
Qed.

Lemma remove_card_perm id l : id ∈ l → l ≡ₚ id :: remove_card id l.
Proof.
  induction l as [|x l IH]; simpl; intros Hin; [by apply elem_of_nil in Hin|].
  case_bool_decide as Hx; [by subst|].
  apply elem_of_cons in Hin as [->|Hin]; [done|].
  rewrite (IH Hin) at 1. apply Permutation_swap.
Qed.

(** C10: when one of the three deletions of a confirmed removal rejects,
    the card stays in the document, no object URL is revoked and an error
    toast is shown; when all three succeed the card leaves the document,
    its object URL is revoked and forgotten, and a success toast is
    shown; so the card list changes only when all three succeed. *)
Theorem remove_card_only_on_success (book : Db.Book) (o : Outcomes)
    (w : World) :
  let id := Db.id book in
  let w' := confirmRemove book true o w in
  (books_delete_ok o = false ∨ chapters_delete_ok o = false
   ∨ deleteBook_ok o = false →
     cards w' = cards w
     ∧ _objectUrls w' = _objectUrls w
     ∧ object_urls w' = object_urls w
     ∧ toasts w' = toasts w ++ [("Failed to remove book", "error")])
  ∧ (books_delete_ok o = true ∧ chapters_delete_ok o = true
     ∧ deleteBook_ok o = true →
     cards w' = remove_card id (cards w)
     ∧ (id ∈ cards w → cards w ≡ₚ id :: cards w')
     ∧ _objectUrls w' !! id = None
     ∧ (∀ url, _objectUrls w !! id = Some url → url ∉ object_urls w')
     ∧ toasts w' = toasts w ++ [("Book removed from library", "success")])
  ∧ (cards w' ≠ cards w → all_ok o = true).
Proof.
  intros id w'. subst w'. unfold confirmRemove; simpl.
  split; [|split].
  - intros Hfail. apply all_ok_false in Hfail. rewrite Hfail. done.
  - intros Hok. apply all_ok_true in Hok. rewrite Hok.
    unfold revoke_card_url; simpl. fold id.
    destruct (_objectUrls w !! id) as [url|] eqn:Hurl; simpl.
    + split; [done|]. split; [apply remove_card_perm|].
      split; [apply lookup_delete_eq|]. split; [|done].
      intros url' [= <-]. apply not_elem_of_difference; right.
      by apply elem_of_singleton.
    + split; [done|]. split; [apply remove_card_perm|]. done.
  - destruct (all_ok o); [done|]. simpl. intros Hne. by destruct Hne.
Qed.

End remove.

Lemma remove_cascades_witness :
  let book := {| Db.id := 1;
                 Db.row := {| Db.b_title := "Moby-Dick";
                              Db.b_author := "Herman Melville";
                              Db.b_filename := "moby.epub";
                              Db.b_fileSize := 1024; Db.b_addedAt := 0;
                              Db.b_coverBlob := None;
                              Db.b_chapterCount := 1 |} |} in
  let w := {| BookCard.store :=
                Store.putPosition 1 (0, 3)%Z
                  (Store.putChapters 1
                     [{| Store.c_title := "Loomings"; Store.c_href := "c1.xhtml";
                         Store.c_sentences := ["Call me Ishmael."] |}]
                     Store.empty);
              BookCard.cards := [1%Z]; BookCard._objectUrls := ∅;
              BookCard.object_urls := ∅; BookCard.grid_hidden := false;
              BookCard.empty_hidden := true; BookCard.toasts := [];
              BookCard.console := [] |} in
  let o := {| BookCard.books_delete_ok := true;
              BookCard.chapters_delete_ok := true;
              BookCard.deleteBook_ok := true |} in
  let s := BookCard.store (BookCard.confirmRemove book true o w) in
  Store.getPosition 1 (BookCard.store w) = Some (0, 3)%Z
  ∧ Db.rows (Db.books (Store.db s)) !! 1%Z = None
  ∧ (∀ k r, Db.rows (Db.chapters (Store.db s)) !! k = Some r →
            Db.bookId r ≠ 1%Z)
  ∧ (1%Z ∉ Store.files s)
  ∧ Store.getPosition 1 s = None.
Proof.
  intros book w o s. split; [reflexivity|].
  exact (remove_cascades book o w eq_refl).
Defined.

(** ** The chapter rows of a book *)

Section chapters.
Import Store.

Local Open Scope Z_scope.

Global Instance spine_le_trans : Transitive spine_le.
Proof. unfold spine_le. intros x y z. lia. Qed.

Global Instance spine_le_total : Total spine_le.
Proof. unfold spine_le. intros x y. lia. Qed.

Lemma keys_fresh_delete_where b tb :
  keys_fresh tb → keys_fresh (Db.table_delete_where Db.bookId b tb).
Proof.
  intros Hf k r Hr. apply map_lookup_filter_Some in Hr as [Hr _].
  exact (Hf k r Hr).
Qed.

Lemma spine_unique_delete_where b tb :
  spine_unique tb → spine_unique (Db.table_delete_where Db.bookId b tb).
Proof.
  intros Hu k1 k2 r1 r2 H1 H2.
  apply map_lookup_filter_Some in H1 as [H1 _].
  apply map_lookup_filter_Some in H2 as [H2 _].
  exact (Hu k1 k2 r1 r2 H1 H2).
Qed.

(** Adding the rows of a chapter list to a table whose rows of that book,
    if any, have smaller spine indices keeps keys fresh and spine indices
    unique. *)
Lemma add_chapters_wf b i l tb :
  keys_fresh tb → spine_unique tb →
  (∀ k r, Db.rows tb !! k = Some r → Db.bookId r = b → Db.spineIndex r < i) →
  keys_fresh (add_chapters b i l tb) ∧ spine_unique (add_chapters b i l tb).
Proof.
  revert i tb. induction l as [|c l IH]; intros i tb Hf Hu Hlt; simpl; [done|].
  apply IH.
  - intros k r. simpl. rewrite lookup_insert.
    case_decide as Hk; [intros _; lia|]. intros Hr. specialize (Hf k r Hr). lia.
  - intros k1 k2 r1 r2. simpl. rewrite !lookup_insert.
    case_decide as Hk1; case_decide as Hk2.
    + congruence.
    + intros [= <-] H2 Hb Hs. simpl in Hb, Hs.
      specialize (Hlt k2 r2 H2 (eq_sym Hb)). lia.
    + intros H1 [= <-] Hb Hs. simpl in Hb, Hs.
      specialize (Hlt k1 r1 H1 Hb). lia.
    + apply Hu.
  - intros k r. simpl. rewrite lookup_insert.
    case_decide as Hk; [intros [= <-] _; simpl; lia|].
    intros Hr Hb. specialize (Hlt k r Hr Hb). lia.
Qed.

Lemma putChapters_wf b l s :
  keys_fresh (Db.chapters (db s)) → spine_unique (Db.chapters (db s)) →
  keys_fresh (Db.chapters (db (putChapters b l s)))
  ∧ spine_unique (Db.chapters (db (putChapters b l s))).
Proof.
  intros Hf Hu. unfold putChapters; simpl. apply add_chapters_wf.
  - by apply keys_fresh_delete_where.
  - by apply spine_unique_delete_where.
  - intros k r Hr Hb. apply map_lookup_filter_Some in Hr as [_ Hne]. done.
Qed.

Lemma apply_wf s o :
  keys_fresh (Db.chapters (db s)) ∧ spine_unique (Db.chapters (db s)) →
  keys_fresh (Db.chapters (db (apply s o)))
  ∧ spine_unique (Db.chapters (db (apply s o))).
Proof.
  intros [Hf Hu]. destruct o as [b l|b|b|b pos]; simpl.
  - by apply putChapters_wf.
  - split; [by apply keys_fresh_delete_where|by apply spine_unique_delete_where].
  - split; [by apply keys_fresh_delete_where|by apply spine_unique_delete_where].
  - done.
Qed.

Lemma run_wf ops :
  keys_fresh (Db.chapters (db (run ops)))
  ∧ spine_unique (Db.chapters (db (run ops))).
Proof.
  unfold run. induction ops as [|o ops IH] using rev_ind.
  - split; intros ?; intros; simpl in *; by simplify_map_eq.
  - rewrite foldl_snoc. by apply apply_wf.
Qed.

Lemma elem_of_table_where b (tb : Db.Table Db.ChapterRow) r :
  r ∈ Db.table_where Db.bookId b tb ↔
  ∃ k, Db.rows tb !! k = Some r ∧ Db.bookId r = b.
Proof.
  unfold Db.table_where. rewrite list_elem_of_fmap. split.
  - intros ([k r'] & -> & Hin). apply elem_of_map_to_list in Hin.
    apply map_lookup_filter_Some in Hin. by exists k.
  - intros (k & Hr & Hb). exists (k, r). split; [done|].
    apply elem_of_map_to_list, map_lookup_filter_Some. done.
Qed.

Lemma table_where_NoDup b tb :
  spine_unique tb → NoDup (Db.spineIndex <$> Db.table_where Db.bookId b tb).
Proof.
  intros Hu. unfold Db.table_where. rewrite <-list_fmap_compose.
  apply NoDup_fmap_2_strong; [|apply NoDup_map_to_list].
  intros [k1 r1] [k2 r2] H1 H2 Hs. simpl in Hs.
  apply elem_of_map_to_list, map_lookup_filter_Some in H1 as [H1 Hb1].
  apply elem_of_map_to_list, map_lookup_filter_Some in H2 as [H2 Hb2].
  simpl in Hb1, Hb2.
  assert (k1 = k2) as -> by (eapply Hu; eauto; congruence).
  congruence.
Qed.

Lemma sorted_strict (l : list Db.ChapterRow) :
  StronglySorted spine_le l → NoDup (Db.spineIndex <$> l) →
  StronglySorted spine_lt l.
Proof.
  induction 1 as [|r l Hl IH Hr]; intros Hnd; [constructor|].
  rewrite fmap_cons in Hnd. apply NoDup_cons in Hnd as [Hnotin Hnd].
  constructor; [by apply IH|].
  rewrite Forall_forall in Hr |- *. intros r' Hin.
  specialize (Hr r' Hin). unfold spine_le in Hr. unfold spine_lt.
  assert (Db.spineIndex r ≠ Db.spineIndex r'); [|lia].
  intros Heq. apply Hnotin. rewrite Heq. by apply list_elem_of_fmap_2.
Qed.

Lemma getChapters_sorted b s :
  spine_unique (Db.chapters (db s)) →
  StronglySorted spine_lt (getChapters b s).
Proof.
  intros Hu. unfold getChapters. apply sorted_strict.
  - apply StronglySorted_merge_sort; apply _.
  - rewrite merge_sort_Permutation. by apply table_where_NoDup.
Qed.

Lemma elem_of_getChapters b s r :
  r ∈ getChapters b s ↔
  ∃ k, Db.rows (Db.chapters (db s)) !! k = Some r ∧ Db.bookId r = b.
Proof.
  unfold getChapters. rewrite merge_sort_Permutation.
  apply elem_of_table_where.
Qed.

Lemma keys_fresh_lookup tb : keys_fresh tb → Db.rows tb !! Db.next_id tb = None.
Proof.
  intros Hf. destruct (Db.rows tb !! Db.next_id tb) as [r|] eqn:Hr; [|done].
  specialize (Hf _ _ Hr). lia.
Qed.

Lemma keys_fresh_add r tb : keys_fresh tb → keys_fresh (Db.table_add r tb).
Proof.
  intros Hf k r'. simpl. rewrite lookup_insert.
  case_decide; [intros _; lia|]. intros Hr. specialize (Hf _ _ Hr). lia.
Qed.

Lemma table_where_add b r tb :
  keys_fresh tb → Db.bookId r = b →
  Db.table_where Db.bookId b (Db.table_add r tb)
    ≡ₚ r :: Db.table_where Db.bookId b tb.
Proof.
  intros Hf Hb. unfold Db.table_where, Db.table_add; simpl.
  rewrite map_filter_insert_True by done.
  rewrite map_to_list_insert; [done|].
  apply map_lookup_filter_None. left. by apply keys_fresh_lookup.
Qed.

Lemma table_where_add_chapters b i l tb :
  keys_fresh tb →
  Db.table_where Db.bookId b (add_chapters b i l tb)
    ≡ₚ Db.table_where Db.bookId b tb ++ rows_of b i l.
Proof.
  revert i tb. induction l as [|c l IH]; intros i tb Hf; simpl.
  - by rewrite app_nil_r.
  - rewrite IH by (by apply keys_fresh_add).
    rewrite table_where_add by done.
    by rewrite <-Permutation_middle.
Qed.

Lemma table_where_delete_where b tb :
  Db.table_where Db.bookId b (Db.table_delete_where Db.bookId b tb) = [].
Proof.
  unfold Db.table_where, Db.table_delete_where; simpl.
  rewrite (proj2 (map_to_list_empty_iff _)); [done|].
  apply map_empty. intros k. apply map_lookup_filter_None. right.
  intros r Hr. apply map_lookup_filter_Some in Hr as [_ Hne]. done.
Qed.

Lemma rows_of_sorted b i l :
  Forall (λ r, i ≤ Db.spineIndex r) (rows_of b i l)
  ∧ StronglySorted spine_lt (rows_of b i l).
Proof.
  revert i. induction l as [|c l IH]; intros i; simpl.
  - split; constructor.
  - destruct (IH (i + 1)) as [Hge Hs]. split.
    + constructor; [simpl; lia|].
      eapply Forall_impl; [exact Hge|]. simpl. intros; lia.
    + constructor; [done|].
      eapply Forall_impl; [exact Hge|]. unfold spine_lt; simpl. intros; lia.
Qed.

(** What was put for a book is what is read back: one row per element of
    the chapter list, in its order, with spine indices 0, 1, 2, ... *)
Lemma getChapters_putChapters b l s :
  keys_fresh (Db.chapters (db s)) → spine_unique (Db.chapters (db s)) →
  getChapters b (putChapters b l s) = rows_of b 0 l.
Proof.
  intros Hf Hu.
  apply (StronglySorted_unique_strong spine_lt).
  - unfold spine_lt. intros; lia.
  - apply getChapters_sorted. by apply putChapters_wf.
  - apply rows_of_sorted.
  - unfold getChapters. rewrite merge_sort_Permutation.
    unfold putChapters; simpl.
    rewrite table_where_add_chapters by (by apply keys_fresh_delete_where).
    by rewrite table_where_delete_where.
Qed.

(** C6: in every state of the store the operations lead to, no two
    chapter rows of a book share a spine index, and [getChapters] returns
    the rows of the book, each once, in strictly increasing spine-index
    order. *)
Theorem chapters_in_spine_order (ops : list op) (b : Z) :
  let s := run ops in
  spine_unique (Db.chapters (db s))
  ∧ StronglySorted spine_lt (getChapters b s)
  ∧ (∀ r, r ∈ getChapters b s ↔
          ∃ k, Db.rows (Db.chapters (db s)) !! k = Some r ∧ Db.bookId r = b).
Proof.
  intros s. destruct (run_wf ops) as [_ Hu].
  split; [exact Hu|]. split; [by apply getChapters_sorted|].
  intros r. apply elem_of_getChapters.
Qed.

End chapters.

(** ** The reader and its engine *)

Section reader.
Context {E : Engine}.

Implicit Types (w : World) (h : handle) (m : method) (l : list action).

(** *** What the operations leave alone *)

Ltac by_deliver_induction ps w :=
  revert w; induction ps as [|p ps IH]; intros w; simpl; [done|];
  rewrite IH; done.

Lemma log_deliver ps w : log (deliver ps w) = log w ++ (ARender <$> ps).
Proof.
  revert w. induction ps as [|p ps IH]; intros w; simpl.
  - by rewrite app_nil_r.
  - rewrite IH, log_render. by rewrite <-app_assoc.
Qed.

Lemma engine_deliver ps w : engine (deliver ps w) = engine w.
Proof. by_deliver_induction ps w. Qed.

Lemma heap_deliver ps w : heap (deliver ps w) = heap w.
Proof. by_deliver_induction ps w. Qed.

Lemma store_deliver ps w : store (deliver ps w) = store w.
Proof. by_deliver_induction ps w. Qed.

Lemma awaiting_deliver ps w : awaiting (deliver ps w) = awaiting w.
Proof. by_deliver_induction ps w. Qed.

Lemma log_invoke h m w :
  ∃ ps, log (invoke h m w) = log w ++ ACall h m :: (ARender <$> ps).
Proof.
  unfold invoke; simpl. destruct (heap w !! h) as [e|].
  - destruct (e_call m e (store w)) as [[e' s'] ps]. exists ps.
    rewrite log_deliver; simpl. by rewrite <-app_assoc.
  - exists []. reflexivity.
Qed.

Lemma engine_invoke h m w : engine (invoke h m w) = engine w.
Proof.
  unfold invoke; simpl. destruct (heap w !! h) as [e|]; [|done].
  destruct (e_call m e (store w)) as [[e' s'] ps]. by rewrite engine_deliver.
Qed.

Lemma engine_engine_opt m w : engine (engine_opt m w) = engine w.
Proof.
  unfold engine_opt. destruct (engine w) eqn:He; [|done].
  by rewrite engine_invoke.
Qed.

(** *** Engines live in a log *)

Lemma live_of_snoc l a : live_of (l ++ [a]) = live_step (live_of l) a.
Proof. unfold live_of. by rewrite foldl_snoc. Qed.

Lemma one_at_a_time_snoc l a :
  one_at_a_time l → size (live_of (l ++ [a])) ≤ 1 → one_at_a_time (l ++ [a]).
Proof.
  intros Hl Ha k. destruct (decide (k ≤ length l)) as [Hk|Hk].
  - rewrite take_app_le by done. apply Hl.
  - rewrite take_ge by (rewrite length_app; simpl; lia). exact Ha.
Qed.

Lemma one_at_a_time_last l : one_at_a_time l → size (live_of l) ≤ 1.
Proof. intros Hl. specialize (Hl (length l)). by rewrite firstn_all in Hl. Qed.

Lemma neutral_app l l' :
  Forall neutral l' → one_at_a_time l →
  one_at_a_time (l ++ l') ∧ live_of (l ++ l') = live_of l.
Proof.
  induction l' as [|a l' IH] using rev_ind; intros Hn Hl.
  - by rewrite app_nil_r.
  - apply Forall_app in Hn as [Hn Ha]. rewrite Forall_singleton in Ha.
    destruct (IH Hn Hl) as [IH1 IH2]. rewrite app_assoc.
    assert (live_of ((l ++ l') ++ [a]) = live_of l) as Heq.
    { rewrite live_of_snoc, IH2. destruct a as [?|? []|?|?|]; simpl in *; done. }
    split; [|exact Heq].
    apply one_at_a_time_snoc; [done|]. rewrite Heq.
    by apply one_at_a_time_last.
Qed.

Lemma neutral_renders ps : Forall neutral (ARender <$> ps).
Proof. induction ps; constructor; done. Qed.

(** An operation that only calls methods other than [destroy], renders
    and alerts keeps the invariant. *)
Lemma engine_inv_neutral w w' l :
  log w' = log w ++ l → Forall neutral l → engine w' = engine w →
  engine_inv w → engine_inv w'.
Proof.
  intros Hlog Hn He [H1 H2]. unfold engine_inv. rewrite Hlog, He.
  destruct (neutral_app (log w) l Hn H1) as [H3 H4]. by rewrite H4.
Qed.

Lemma engine_inv_invoke h m w :
  m ≠ MDestroy → engine_inv w → engine_inv (invoke h m w).
Proof.
  intros Hm. destruct (log_invoke h m w) as [ps Hps].
  eapply engine_inv_neutral; [exact Hps| |apply engine_invoke].
  constructor; [by destruct m|apply neutral_renders].
Qed.

Lemma engine_inv_engine_opt m w :
  m ≠ MDestroy → engine_inv w → engine_inv (engine_opt m w).
Proof.
  intros Hm. unfold engine_opt. destruct (engine w); [|done].
  by apply engine_inv_invoke.
Qed.

(** After [_destroyEngine] no engine is live and [engine] is [null]. *)
Lemma destroyEngine_inv w :
  engine_inv w →
  let w' := _destroyEngine w in
  one_at_a_time (log w') ∧ live_of (log w') = ∅ ∧ engine w' = None.
Proof.
  intros [H1 H2]. simpl. unfold engine_opt.
  destruct (engine w) as [h|] eqn:He; simpl in *.
  - destruct (log_invoke h MDestroy w) as [ps Hps]. rewrite Hps.
    assert (one_at_a_time (log w ++ [ACall h MDestroy])
            ∧ live_of (log w ++ [ACall h MDestroy]) = ∅) as [H3 H4].
    { assert (live_of (log w ++ [ACall h MDestroy]) = ∅) as Heq.
      { rewrite live_of_snoc, H2. simpl. apply set_eq. intros x.
        rewrite elem_of_difference, elem_of_singleton.
        split; [tauto|]. intros Hx. by apply not_elem_of_empty in Hx. }
      split; [|done]. apply one_at_a_time_snoc; [done|].
      rewrite Heq, size_empty. lia. }
    rewrite (cons_middle _ (log w)), app_assoc.
    destruct (neutral_app _ _ (neutral_renders ps) H3) as [H5 H6].
    by rewrite H6.
  - done.
Qed.

Lemma speech_deliver ps w :
  speech_supported (deliver ps w) = speech_supported w.
Proof. by_deliver_induction ps w. Qed.

Lemma speech_invoke h m w : speech_supported (invoke h m w) = speech_supported w.
Proof.
  unfold invoke; simpl. destruct (heap w !! h) as [e|]; [|done].
  destruct (e_call m e (store w)) as [[e' s'] ps]. by rewrite speech_deliver.
Qed.

Lemma speech_destroyEngine w :
  speech_supported (_destroyEngine w) = speech_supported w.
Proof.
  unfold _destroyEngine, engine_opt; simpl.
  destruct (engine w); [apply speech_invoke|done].
Qed.

Lemma log_releaseCover w : log (_releaseCover w) = log w.
Proof. unfold _releaseCover. by destruct (coverUrl w). Qed.

Lemma engine_releaseCover w : engine (_releaseCover w) = engine w.
Proof. unfold _releaseCover. by destruct (coverUrl w). Qed.

Lemma speech_releaseCover w :
  speech_supported (_releaseCover w) = speech_supported w.
Proof. unfold _releaseCover. by destruct (coverUrl w). Qed.

Lemma log_add_keydown_listener c w : log (add_keydown_listener c w) = log w.
Proof. unfold add_keydown_listener. by destruct (keydown_listener w). Qed.

(** [openReader] where the browser lacks speech synthesis: the engine is
    destroyed, the user is alerted, and nothing else happens. *)
Lemma openReader_unsupported book w :
  speech_supported w = false →
  openReader book w
  = add_log (AAlert "Text-to-speech is not supported in this browser.")
      (_releaseCover (_destroyEngine w)).
Proof.
  intros Hs. unfold openReader.
  by rewrite speech_releaseCover, speech_destroyEngine, Hs.
Qed.

Lemma openReader_supported book w :
  speech_supported w = true →
  openReader book w
  = start_engine book
      (listen_keys
         (_render loading_payload
            (show_book book (_releaseCover (_destroyEngine w))))).
Proof.
  intros Hs. unfold openReader.
  by rewrite speech_releaseCover, speech_destroyEngine, Hs.
Qed.

Lemma log_show_book book w : log (show_book book w) = log w.
Proof. unfold show_book. by destruct (Db.b_coverBlob (Db.row book)). Qed.

Lemma log_listen_keys w : log (listen_keys w) = log w.
Proof. unfold listen_keys. by rewrite log_add_keydown_listener. Qed.

Lemma start_engine_log book w :
  ∃ ps,
    engine (start_engine book w) = Some (next_id w)
    ∧ next_id w ∈ awaiting (start_engine book w)
    ∧ log (start_engine book w)
      = log w ++ ANew (next_id w) :: (ARender <$> e_new.2)
        ++ ACall (next_id w) (MOpen (Db.id book)) :: (ARender <$> ps).
Proof.
  unfold start_engine. cbv zeta.
  match goal with
  | |- context [invoke ?h ?m ?W] =>
      destruct (log_invoke h m W) as [ps Hps]; exists ps
  end.
  split; [|split].
  - cbn [set_awaiting engine]. rewrite engine_invoke. reflexivity.
  - cbn [set_awaiting awaiting]. apply elem_of_union_l. by apply elem_of_singleton.
  - cbn [set_awaiting log]. rewrite Hps. cbn [set_engine log].
    rewrite log_deliver. simpl. rewrite <-!app_assoc. reflexivity.
Qed.

(** The log of [openReader] where speech synthesis is supported: after
    the old engine is destroyed, the loading state is rendered, the new
    engine is constructed, and its [open] is called. *)
Lemma openReader_log book w :
  speech_supported w = true →
  ∃ h ps,
    engine (openReader book w) = Some h
    ∧ h ∈ awaiting (openReader book w)
    ∧ log (openReader book w)
      = log (_destroyEngine w)
        ++ ARender loading_payload :: ANew h :: (ARender <$> e_new.2)
        ++ ACall h (MOpen (Db.id book)) :: (ARender <$> ps).
Proof.
  intros Hs. unfold openReader. cbv zeta.
  rewrite speech_releaseCover, speech_destroyEngine, Hs. cbn [negb].
  match goal with
  | |- context [start_engine book ?W] =>
      destruct (start_engine_log book W) as (ps & He & Ha & Hlog);
      exists (next_id W), ps
  end.
  split; [exact He|]. split; [exact Ha|].
  rewrite Hlog, log_listen_keys, log_render, log_show_book, log_releaseCover.
  by rewrite <-app_assoc.
Qed.

Lemma openReader_inv book w : engine_inv w → engine_inv (openReader book w).
Proof.
  intros Hinv. destruct (destroyEngine_inv w Hinv) as (H1 & H2 & H3).
  destruct (speech_supported w) eqn:Hs.
  - destruct (openReader_log book w Hs) as (h & ps & He & _ & Hlog).
    unfold engine_inv. rewrite Hlog, He.
    destruct (neutral_app (log (_destroyEngine w)) [ARender loading_payload])
      as [H4 H5]; [by repeat constructor|done|].
    assert (live_of ((log (_destroyEngine w) ++ [ARender loading_payload])
                     ++ [ANew h]) = {[h]}) as H6.
    { rewrite live_of_snoc, H5, H2. simpl. apply union_empty_r_L. }
    assert (one_at_a_time ((log (_destroyEngine w) ++ [ARender loading_payload])
                           ++ [ANew h])) as H7.
    { apply one_at_a_time_snoc; [done|]. rewrite H6, size_singleton. lia. }
    destruct (neutral_app
                ((log (_destroyEngine w) ++ [ARender loading_payload])
                 ++ [ANew h])
                ((ARender <$> e_new.2)
                 ++ ACall h (MOpen (Db.id book)) :: (ARender <$> ps)))
      as [H8 H9]; [|exact H7|].
    { apply Forall_app. split; [apply neutral_renders|].
      constructor; [done|apply neutral_renders]. }
    replace (log (_destroyEngine w)
             ++ ARender loading_payload :: ANew h :: (ARender <$> e_new.2)
             ++ ACall h (MOpen (Db.id book)) :: (ARender <$> ps))
      with (((log (_destroyEngine w) ++ [ARender loading_payload])
             ++ [ANew h])
            ++ (ARender <$> e_new.2)
            ++ ACall h (MOpen (Db.id book)) :: (ARender <$> ps))
      by (by rewrite <-!app_assoc).
    split; [exact H8|]. etrans; [exact H9|exact H6].
  - rewrite openReader_unsupported by done.
    eapply (engine_inv_neutral (_releaseCover (_destroyEngine w)));
      [reflexivity|by repeat constructor|reflexivity|].
    unfold engine_inv.
    by rewrite log_releaseCover, engine_releaseCover, H2, H3.
Qed.

Lemma log_abort c w : log (abort c w) = log w.
Proof. unfold abort. by case_bool_decide. Qed.

Lemma engine_abort c w : engine (abort c w) = engine w.
Proof. unfold abort. by case_bool_decide. Qed.

Lemma engine_inv_frame w w' :
  log w' = log w → engine w' = engine w → engine_inv w → engine_inv w'.
Proof. unfold engine_inv. by intros -> ->. Qed.

Lemma closeReader_inv w : engine_inv w → engine_inv (closeReader w).
Proof.
  intros Hinv. apply (engine_inv_engine_opt MStop) in Hinv; [|done].
  destruct (destroyEngine_inv _ Hinv) as (H1 & H2 & H3).
  unfold closeReader.
  set (w1 := _releaseCover (_destroyEngine (engine_opt MStop w))).
  assert (engine_inv w1) as Hw1.
  { unfold engine_inv, w1.
    by rewrite log_releaseCover, engine_releaseCover, H2, H3. }
  eapply engine_inv_frame; [| |exact Hw1].
  - cbn [log set_document set_kbAbort].
    destruct (kbAbort w1); [apply log_abort|done].
  - cbn [engine set_document set_kbAbort].
    destruct (kbAbort w1); [apply engine_abort|done].
Qed.

Lemma onPlayClick_inv w : engine_inv w → engine_inv (onPlayClick w).
Proof.
  intros Hinv. unfold onPlayClick. destruct (engine w); [|done].
  destruct (String.eqb _ _); by apply engine_inv_invoke.
Qed.

Lemma onKeyDown_inv e w : engine_inv w → engine_inv (_onKeyDown e w).
Proof.
  intros Hinv. unfold _onKeyDown.
  assert (engine_inv (add_log APreventDefault w)) as Hpd.
  { eapply engine_inv_neutral; [reflexivity|by repeat constructor|done|done]. }
  destruct (target_in_control e); [done|].
  repeat (destruct (String.eqb (key e) _);
          [first [by apply closeReader_inv
                 | by apply engine_inv_engine_opt
                 | simpl; destruct (String.eqb _ _);
                   by apply engine_inv_engine_opt]|]).
  done.
Qed.

Lemma resume_frame h r w :
  log (openReader_resume h r w) = log w
  ∧ engine (openReader_resume h r w) = engine w
  ∧ lastState (openReader_resume h r w) = lastState w.
Proof.
  unfold openReader_resume. case_bool_decide; [|done]. by destruct r.
Qed.

Lemma signal_inv h s w : engine_inv w → engine_inv (signal h s w).
Proof.
  intros Hinv. unfold signal. destruct (heap w !! h) as [e|]; [|done].
  destruct (e_signal s e (store w)) as [[[e' s'] ps] r].
  set (w1 := deliver ps _).
  assert (engine_inv w1) as Hw1.
  { eapply engine_inv_neutral; [apply log_deliver|apply neutral_renders| |done].
    unfold w1. by rewrite engine_deliver. }
  destruct r as [r|]; [|done].
  destruct (resume_frame h r w1) as (Hl & He & _).
  by eapply engine_inv_frame.
Qed.

Lemma step_inv w ev : engine_inv w → engine_inv (step w ev).
Proof.
  intros Hinv. destruct ev; simpl.
  - by apply openReader_inv.
  - by apply closeReader_inv.
  - by apply closeReader_inv.
  - by apply onPlayClick_inv.
  - by apply engine_inv_engine_opt.
  - by apply engine_inv_engine_opt.
  - by apply engine_inv_engine_opt.
  - by apply onKeyDown_inv.
  - by apply signal_inv.
Qed.

Lemma run_inv w evs : engine_inv w → engine_inv (run w evs).
Proof.
  revert w. induction evs as [|ev evs IH]; intros w Hinv; [done|].
  simpl. by apply IH, step_inv.
Qed.

Lemma init_inv d sup s : engine_inv (init d sup s).
Proof.
  split; [|done]. intros k. simpl. rewrite take_nil.
  change (live_of []) with (∅ : gset handle). rewrite size_empty. lia.
Qed.

(** C5: whatever happens to the module after the page loads it, at no
    point of its history, also inside [openReader] and [closeReader], are
    two engines live (constructed and not yet destroyed), and between two
    events the only live engine is the one the variable [engine] holds. *)
Theorem one_live_engine (d : Dom) (sup : bool) (s : store_t)
    (evs : list event) (k : nat) :
  let w := run (init d sup s) evs in
  size (live_of (take k (log w))) ≤ 1
  ∧ live_of (log w) = held (engine w).
Proof.
  intros w. destruct (run_inv _ evs (init_inv d sup s)) as [H1 H2].
  split; [apply H1|exact H2].
Qed.

(** *** The last rendered state *)

Lemma last_rendered_snoc l a :
  last_rendered (l ++ [a])
  = match a with ARender p => Some (state p) | _ => last_rendered l end.
Proof. unfold last_rendered. by rewrite foldl_snoc. Qed.

Lemma synced_render p w : synced (_render p w).
Proof. unfold synced. by rewrite log_render, last_rendered_snoc. Qed.

Lemma synced_deliver ps w : synced w → synced (deliver ps w).
Proof.
  revert w. induction ps as [|p ps IH]; intros w Hw; [done|].
  simpl. apply IH, synced_render.
Qed.

Lemma synced_frame w w' :
  log w' = log w → lastState w' = lastState w → synced w → synced w'.
Proof. unfold synced. by intros -> ->. Qed.

Lemma synced_add_log a w :
  match a with ARender _ => False | _ => True end →
  synced w → synced (add_log a w).
Proof.
  unfold synced; simpl. rewrite last_rendered_snoc. by destruct a.
Qed.

Lemma synced_invoke h m w : synced w → synced (invoke h m w).
Proof.
  intros Hw. unfold invoke. cbn [heap add_log set_log].
  assert (synced (add_log (ACall h m) w)) as Hw' by (by apply synced_add_log).
  destruct (heap w !! h) as [e|]; [|done].
  cbn [store add_log set_log].
  destruct (e_call m e (store w)) as [[e' s'] ps].
  apply synced_deliver. exact Hw'.
Qed.

Lemma synced_start_engine book w : synced w → synced (start_engine book w).
Proof.
  intros Hw. unfold start_engine. cbv zeta.
  eapply synced_frame; [reflexivity|reflexivity|].
  apply synced_invoke.
  eapply synced_frame; [reflexivity|reflexivity|].
  apply synced_deliver.
  eapply synced_frame; [reflexivity|reflexivity|].
  by apply (synced_add_log (ANew _)).
Qed.

Lemma lastState_listen_keys w : lastState (listen_keys w) = lastState w.
Proof.
  unfold listen_keys, add_keydown_listener. cbv zeta.
  cbn [keydown_listener set_kbAbort set_next_id]. by destruct (keydown_listener w).
Qed.

Lemma state_inv_keep w w' :
  engine w' = engine w → (synced w → synced w') → state_inv w → state_inv w'.
Proof. unfold state_inv. intros -> Hs Hw He. auto. Qed.

Lemma engine_closeReader w : engine (closeReader w) = None.
Proof.
  unfold closeReader. cbn [engine set_document set_kbAbort].
  set (w1 := _releaseCover _).
  assert (engine w1 = None) as Hw1.
  { unfold w1. by rewrite engine_releaseCover. }
  destruct (kbAbort w1); [by rewrite engine_abort|done].
Qed.

Lemma state_inv_none w : engine w = None → state_inv w.
Proof. intros He Hne. by destruct Hne. Qed.

Lemma openReader_state_inv book w : state_inv (openReader book w).
Proof.
  destruct (speech_supported w) eqn:Hs.
  - intros _. unfold openReader. cbv zeta.
    rewrite speech_releaseCover, speech_destroyEngine, Hs. cbn [negb].
    apply synced_start_engine.
    eapply synced_frame;
      [apply log_listen_keys|apply lastState_listen_keys|apply synced_render].
  - rewrite openReader_unsupported by done. apply state_inv_none.
    cbn [engine add_log set_log]. by rewrite engine_releaseCover.
Qed.

Lemma state_inv_invoke h m w : state_inv w → state_inv (invoke h m w).
Proof.
  apply state_inv_keep; [apply engine_invoke|apply synced_invoke].
Qed.

Lemma state_inv_engine_opt m w : state_inv w → state_inv (engine_opt m w).
Proof.
  unfold engine_opt. destruct (engine w) eqn:He; [|done].
  apply state_inv_invoke.
Qed.

Lemma onKeyDown_state_inv e w : state_inv w → state_inv (_onKeyDown e w).
Proof.
  intros Hinv. unfold _onKeyDown.
  assert (state_inv (add_log APreventDefault w)) as Hpd.
  { revert Hinv. apply state_inv_keep; [done|]. by apply synced_add_log. }
  destruct (target_in_control e); [done|].
  repeat (destruct (String.eqb (key e) _);
          [first [apply state_inv_none, engine_closeReader
                 | by apply state_inv_engine_opt
                 | cbv zeta; destruct (String.eqb _ _);
                   by apply state_inv_engine_opt]|]).
  done.
Qed.

Lemma signal_state_inv h s w : state_inv w → state_inv (signal h s w).
Proof.
  intros Hinv. unfold signal. destruct (heap w !! h) as [e|]; [|done].
  destruct (e_signal s e (store w)) as [[[e' s'] ps] r].
  set (w1 := deliver ps _).
  assert (state_inv w1) as Hw1.
  { revert Hinv. apply state_inv_keep; [unfold w1; by rewrite engine_deliver|].
    intros Hw. apply synced_deliver. exact Hw. }
  destruct r as [r|]; [|done].
  destruct (resume_frame h r w1) as (Hl & He & Hs).
  revert Hw1. apply state_inv_keep; [done|]. by apply synced_frame.
Qed.

Lemma step_state_inv w ev : state_inv w → state_inv (step w ev).
Proof.
  intros Hinv. destruct ev; simpl.
  - apply openReader_state_inv.
  - apply state_inv_none, engine_closeReader.
  - apply state_inv_none, engine_closeReader.
  - unfold onPlayClick. destruct (engine w); [|done].
    destruct (String.eqb _ _); by apply state_inv_invoke.
  - by apply state_inv_engine_opt.
  - by apply state_inv_engine_opt.
  - by apply state_inv_engine_opt.
  - by apply onKeyDown_state_inv.
  - by apply signal_state_inv.
Qed.

Lemma run_state_inv w evs : state_inv w → state_inv (run w evs).
Proof.
  revert w. induction evs as [|ev evs IH]; intros w Hinv; [done|].
  simpl. by apply IH, step_state_inv.
Qed.

Lemma engine_calls_renders ps : engine_calls (ARender <$> ps) = [].
Proof. induction ps as [|p ps IH]; [done|exact IH]. Qed.

Lemma engine_calls_renders_app ps l :
  engine_calls ((ARender <$> ps) ++ l) = engine_calls l.
Proof. induction ps as [|p ps IH]; [done|exact IH]. Qed.

Lemma engine_calls_call h m ps l :
  engine_calls (ACall h m :: (ARender <$> ps) ++ l) = (h, m) :: engine_calls l.
Proof.
  change (engine_calls (ACall h m :: (ARender <$> ps) ++ l))
    with ((h, m) :: engine_calls ((ARender <$> ps) ++ l)).
  by rewrite engine_calls_renders_app.
Qed.

Lemma appended_app w w' l : log w' = log w ++ l → appended w w' = l.
Proof. unfold appended. intros ->. by rewrite drop_app_length. Qed.

Lemma calls_invoke h m w :
  engine_calls (appended w (invoke h m w)) = [(h, m)].
Proof.
  destruct (log_invoke h m w) as [ps Hps].
  rewrite (appended_app _ _ _ Hps). simpl. by rewrite engine_calls_renders.
Qed.

(** C9, as the code has it: with an engine held, a click on the play
    button, and the Space key pressed outside an input, textarea, select
    or button, call [pause] on it when the last rendered state is
    ['playing'], and [play] in every other case; nothing else is called. *)
Theorem play_control_toggles (d : Dom) (sup : bool) (s : store_t)
    (evs : list event) (h : handle) (e : KeyEvent) :
  let w := run (init d sup s) evs in
  engine w = Some h →
  let m := if bool_decide (last_rendered (log w) = Some "playing")
           then MPause else MPlay in
  engine_calls (appended w (onPlayClick w)) = [(h, m)]
  ∧ (key e = " " → target_in_control e = false →
     engine_calls (appended w (_onKeyDown e w)) = [(h, m)]).
Proof.
  intros w He m.
  assert (synced w) as Hs.
  { apply (run_state_inv (init d sup s) evs); [by apply state_inv_none|].
    fold w. by rewrite He. }
  assert ((if String.eqb (lastState w) "playing" then MPause else MPlay) = m)
    as Hm.
  { unfold m. rewrite Hs. destruct (String.eqb_spec (lastState w) "playing").
    - rewrite bool_decide_eq_true_2; congruence.
    - rewrite bool_decide_eq_false_2; congruence. }
  split.
  - unfold onPlayClick. rewrite He, <-Hm.
    destruct (String.eqb _ _); apply calls_invoke.
  - intros Hk Ht. unfold _onKeyDown. rewrite Ht, Hk, String.eqb_refl.
    cbv zeta. cbn [lastState add_log set_log]. unfold engine_opt.
    cbn [engine add_log set_log]. rewrite He, <-Hm.
    destruct (String.eqb _ _);
      match goal with
      | |- context [invoke ?h ?m ?W] =>
          destruct (log_invoke h m W) as [ps Hps];
          erewrite appended_app
            by (rewrite Hps; cbn [log add_log set_log];
                rewrite <-app_assoc; reflexivity)
      end; simpl; by rewrite engine_calls_renders.
Qed.

(** *** Closing the reader *)

Lemma log_closeReader w : log (closeReader w) = log (_destroyEngine (engine_opt MStop w)).
Proof.
  unfold closeReader. cbn [log set_document set_kbAbort].
  set (w1 := _releaseCover _).
  transitivity (log w1); [|apply log_releaseCover].
  destruct (kbAbort w1); [apply log_abort|done].
Qed.



Lemma invoke_effect h m w e :
  heap w !! h = Some e →
  store (invoke h m w) = (e_call m e (store w)).1.2
  ∧ heap (invoke h m w) = <[h := (e_call m e (store w)).1.1]> (heap w).
Proof.
  intros Hh. unfold invoke. cbn [heap store add_log set_log]. rewrite Hh.
  destruct (e_call m e (store w)) as [[e' s'] ps].
  by rewrite store_deliver, heap_deliver.
Qed.

Lemma store_releaseCover w : store (_releaseCover w) = store w.
Proof. unfold _releaseCover. by destruct (coverUrl w). Qed.



(** *** Opening the reader *)

Lemma log_destroyEngine w :
  ∃ l, log (_destroyEngine w) = log w ++ l
       ∧ ∀ h b, ACall h (MOpen b) ∉ l.
Proof.
  unfold _destroyEngine. cbn [log set_lastState set_engine].
  unfold engine_opt. destruct (engine w) as [h|].
  - destruct (log_invoke h MDestroy w) as [ps Hps]. eexists. split; [exact Hps|].
    intros h' b Hin. apply elem_of_cons in Hin as [Hin|Hin]; [done|].
    apply list_elem_of_fmap in Hin as (p & Hp & _). done.
  - exists []. split; [by rewrite app_nil_r|]. intros h b Hin.
    by apply elem_of_nil in Hin.
Qed.

(** Whatever the engine: where the browser supports speech synthesis,
    [openReader] renders the loading state, with cursor (0,0) and every
    control disabled, before it constructs the engine and calls its
    [open]; and when the promise of that [open] rejects, whatever
    happened in between, the reader shows "Failed to load book" and the
    message of the error, and renders nothing: [lastState] and the
    controls stay as they were. *)
Lemma openReader_loading_first (book : Db.Book) (w : World) :
  speech_supported w = true →
  let w1 := openReader book w in
  ∃ h before after,
    engine w1 = Some h ∧ h ∈ awaiting w1
    ∧ appended w w1 = before ++ ARender loading_payload :: ANew h :: after
    ∧ (∀ h' b, ACall h' (MOpen b) ∉ before)
    ∧ engine_calls after = [(h, MOpen (Db.id book))]
    ∧ state loading_payload = "loading"
    ∧ (chapIdx loading_payload, sentIdx loading_payload) = (0, 0)%Z
    ∧ (∀ d, let d' := _render_dom loading_payload d in
            readerView_state d' = "loading" ∧ btnPlay_disabled d' = true)
    ∧ (∀ w' msg, h ∈ awaiting w' →
         let w2 := openReader_resume h (Rejected msg) w' in
         elChapter (document w2) = "Failed to load book"
         ∧ elSentence (document w2) = msg
         ∧ log w2 = log w'
         ∧ lastState w2 = lastState w'
         ∧ readerView_state (document w2) = readerView_state (document w')
         ∧ btnPlay_disabled (document w2) = btnPlay_disabled (document w')
         ∧ btnStop_disabled (document w2) = btnStop_disabled (document w')
         ∧ btnRewind_disabled (document w2) = btnRewind_disabled (document w')
         ∧ btnForward_disabled (document w2)
           = btnForward_disabled (document w')).
Proof.
  intros Hs w1.
  destruct (openReader_log book w Hs) as (h & ps & He & Ha & Hlog).
  destruct (log_destroyEngine w) as (before & Hd & Hno).
  exists h, before,
    ((ARender <$> e_new.2) ++ ACall h (MOpen (Db.id book)) :: (ARender <$> ps)).
  split; [exact He|]. split; [exact Ha|]. split; [|split; [exact Hno|]].
  { apply appended_app. fold w1 in Hlog. rewrite Hlog, Hd, <-app_assoc.
    reflexivity. }
  split.
  { rewrite engine_calls_renders_app, <-(app_nil_r (ARender <$> ps)).
    by rewrite engine_calls_call. }
  split; [done|]. split; [done|]. split; [done|].
  intros w' msg Hw' w2. subst w2. unfold openReader_resume.
  rewrite bool_decide_eq_true_2 by done. by repeat split.
Qed.

(** *** The engine held is an engine constructed *)

Lemma heap_invoke_grows h m w h' :
  is_Some (heap w !! h') → is_Some (heap (invoke h m w) !! h').
Proof.
  intros Hh'. unfold invoke. cbn [heap store add_log set_log].
  destruct (heap w !! h) as [e|]; [|done].
  destruct (e_call m e (store w)) as [[e' s'] ps].
  rewrite heap_deliver. cbn [heap set_store set_heap add_log set_log].
  rewrite lookup_insert. by case_decide.
Qed.

Lemma heap_inv_invoke h m w : heap_inv w → heap_inv (invoke h m w).
Proof.
  intros Hinv h'. rewrite engine_invoke. intros He.
  by apply heap_invoke_grows, Hinv.
Qed.

Lemma heap_inv_engine_opt m w : heap_inv w → heap_inv (engine_opt m w).
Proof.
  unfold engine_opt. destruct (engine w) eqn:He; [|done]. apply heap_inv_invoke.
Qed.

Lemma heap_inv_none w : engine w = None → heap_inv w.
Proof. intros He h. by rewrite He. Qed.

Lemma heap_start_engine book w :
  is_Some (heap (start_engine book w) !! next_id w).
Proof.
  unfold start_engine. cbv zeta. cbn [heap set_awaiting].
  apply heap_invoke_grows. cbn [heap set_engine]. rewrite heap_deliver.
  cbn [heap set_heap]. rewrite lookup_insert_eq. eauto.
Qed.

Lemma openReader_heap_inv book w : heap_inv (openReader book w).
Proof.
  destruct (speech_supported w) eqn:Hs.
  - unfold openReader. cbv zeta.
    rewrite speech_releaseCover, speech_destroyEngine, Hs. cbn [negb].
    intros h.
    match goal with
    | |- context [start_engine book ?W] =>
        destruct (start_engine_log book W) as (ps & He & _);
        rewrite He; intros [= <-]; apply heap_start_engine
    end.
  - rewrite openReader_unsupported by done. apply heap_inv_none.
    cbn [engine add_log set_log]. by rewrite engine_releaseCover.
Qed.

Lemma heap_resume h r w : heap (openReader_resume h r w) = heap w.
Proof. unfold openReader_resume. case_bool_decide; [|done]. by destruct r. Qed.

Lemma step_heap_inv w ev : heap_inv w → heap_inv (step w ev).
Proof.
  intros Hinv. destruct ev as [book| | | | | | |e|h s]; simpl.
  - apply openReader_heap_inv.
  - apply heap_inv_none, engine_closeReader.
  - apply heap_inv_none, engine_closeReader.
  - unfold onPlayClick. destruct (engine w); [|done].
    destruct (String.eqb _ _); by apply heap_inv_invoke.
  - by apply heap_inv_engine_opt.
  - by apply heap_inv_engine_opt.
  - by apply heap_inv_engine_opt.
  - unfold _onKeyDown. destruct (target_in_control e); [done|].
    repeat (destruct (String.eqb (key e) _);
            [first [apply heap_inv_none, engine_closeReader
                   | by apply heap_inv_engine_opt
                   | cbv zeta; destruct (String.eqb _ _);
                     by apply heap_inv_engine_opt]|]).
    done.
  - unfold signal. destruct (heap w !! h) as [e|] eqn:Hh; [|done].
    destruct (e_signal s e (store w)) as [[[e' s'] ps] r].
    set (w1 := deliver ps _).
    assert (heap_inv w1) as Hw1.
    { intros h'. unfold w1. rewrite engine_deliver, heap_deliver.
      cbn [engine heap set_store set_heap]. intros He.
      rewrite lookup_insert. case_decide; [eauto|by apply Hinv]. }
    destruct r as [r|]; [|done].
    intros h'. destruct (resume_frame h r w1) as (_ & -> & _).
    rewrite heap_resume. apply Hw1.
Qed.

Lemma run_heap_inv w evs : heap_inv w → heap_inv (run w evs).
Proof.
  revert w. induction evs as [|ev evs IH]; intros w Hinv; [done|].
  simpl. by apply IH, step_heap_inv.
Qed.

Lemma signal_unfold h s w e :
  heap w !! h = Some e →
  signal h s w
  = let '(e', s', ps, r) := e_signal s e (store w) in
    let w1 := deliver ps (set_store s' (set_heap (<[h := e']> (heap w)) w)) in
    match r with
    | Some r => openReader_resume h r w1
    | None => w1
    end.
Proof. intros Hh. unfold signal. by rewrite Hh. Qed.

(** An engine held by the module after any history is one of the engines
    constructed. *)
Lemma held_engine_constructed d sup s evs h :
  engine (run (init d sup s) evs) = Some h →
  is_Some (heap (run (init d sup s) evs) !! h).
Proof. apply run_heap_inv. by apply heap_inv_none. Qed.

End reader.

(** ** The reader with the engine of the specification *)

Section with_engine.

Abbreviation TWorld := (@World TTS.engine).




(** The engine of the specification just after [start_engine]: loading
    the book, at generation 1. *)
Lemma start_engine_loading (book : Db.Book) (w : TWorld) :
  heap (start_engine book w) !! next_id w
  = Some {| TTS.st := TTS.Loading; TTS.book := Some (Db.id book);
            TTS.chapters := []; TTS.chap := 0; TTS.sent := 0; TTS.gen := 1 |}.
Proof.
  unfold start_engine. cbv zeta. cbn [heap set_awaiting].
  match goal with
  | |- context [invoke ?h ?m ?W] =>
      destruct (invoke_effect h m W e_new.1) as [_ Hheap]
  end.
  { cbn [heap set_engine]. rewrite heap_deliver.
    cbn [heap set_heap set_next_id add_log set_log]. apply lookup_insert_eq. }
  rewrite Hheap. apply lookup_insert_eq.
Qed.

(** A failed load reaching an engine that is loading, with the reader
    awaiting its [open]. *)
Lemma load_failed_view (w : TWorld) (h : handle) (e : TTS.t) (msg : string) :
  heap w !! h = Some e → TTS.st e = TTS.Loading → TTS.chapters e = [] →
  h ∈ awaiting w →
  let w2 := signal h (TTS.LoadFailed (TTS.gen e) msg) w in
  lastState w2 = "error"
  ∧ elChapter (document w2) = "Failed to load book"
  ∧ elSentence (document w2) = msg
  ∧ btnPlay_disabled (document w2) = true
  ∧ btnStop_disabled (document w2) = true
  ∧ btnRewind_disabled (document w2) = true
  ∧ btnForward_disabled (document w2) = true.
Proof.
  intros Hh Hst Hch Ha w2. subst w2.
  rewrite (signal_unfold (E:=TTS.engine) h _ w e Hh).
  cbn [e_signal TTS.engine TTS.react]. rewrite Hst.
  rewrite bool_decide_eq_true_2 by done.
  cbn [TTS.goto deliver foldl].
  match goal with |- context [_render ?p ?W] => set (p0 := p); set (W0 := W) end.
  assert (h ∈ awaiting (_render p0 W0)) as Ha' by exact Ha.
  unfold openReader_resume. rewrite (bool_decide_eq_true_2 _ Ha').
  cbn [lastState document set_awaiting set_document _render set_lastState
       add_log set_log set_text elChapter elSentence btnPlay_disabled
       btnStop_disabled btnRewind_disabled btnForward_disabled].
  split; [reflexivity|]. split; [reflexivity|]. split; [reflexivity|].
  apply controls_disabled. unfold p0, TTS.payload, TTS.move; simpl.
  by rewrite Hch.
Qed.

(** With the engine of the specification, a failed load after
    [openReader] leaves the reader in the state ['error'], with the
    failure message shown and the four controls disabled. *)
Lemma open_rejected_not_ready (book : Db.Book) (w : TWorld) (msg : string)
    (h : handle) :
  speech_supported w = true →
  engine (openReader book w) = Some h →
  let w2 := step (openReader book w) (EvSignal h (TTS.LoadFailed 1 msg)) in
  lastState w2 = "error"
  ∧ elChapter (document w2) = "Failed to load book"
  ∧ elSentence (document w2) = msg
  ∧ btnPlay_disabled (document w2) = true
  ∧ btnStop_disabled (document w2) = true
  ∧ btnRewind_disabled (document w2) = true
  ∧ btnForward_disabled (document w2) = true.
Proof.
  intros Hs. rewrite (openReader_supported book w Hs).
  set (w0 := listen_keys _).
  destruct (start_engine_log book w0) as (ps & He & Ha & _).
  rewrite He. intros [= <-].
  exact (load_failed_view (start_engine book w0) (next_id w0) _ msg
           (start_engine_loading book w0) eq_refl eq_refl Ha).
Qed.

(** C8, as the code has it: where the browser supports speech synthesis,
    [openReader] renders the loading state, with cursor (0,0) and every
    control disabled, before it constructs the engine and calls its
    [open]; when the promise of that [open] rejects, whatever happened in
    between, the reader shows "Failed to load book" and the message of
    the error and renders nothing, so that [lastState] and the controls
    stay as they were; and when the load of the engine fails right after
    [openReader], the reader is left in the state ['error'], not a ready
    one, with the four controls disabled. *)
Theorem open_renders_loading_first (book : Db.Book) (w : TWorld) :
  speech_supported w = true →
  let w1 := openReader book w in
  ∃ h before after,
    engine w1 = Some h ∧ h ∈ awaiting w1
    ∧ appended w w1 = before ++ ARender loading_payload :: ANew h :: after
    ∧ (∀ h' b, ACall h' (MOpen b) ∉ before)
    ∧ engine_calls after = [(h, MOpen (Db.id book))]
    ∧ state loading_payload = "loading"
    ∧ (chapIdx loading_payload, sentIdx loading_payload) = (0, 0)%Z
    ∧ (∀ d, let d' := _render_dom loading_payload d in
            readerView_state d' = "loading" ∧ btnPlay_disabled d' = true)
    ∧ (∀ (w' : TWorld) msg, h ∈ awaiting w' →
         let w2 := openReader_resume h (Rejected msg) w' in
         elChapter (document w2) = "Failed to load book"
         ∧ elSentence (document w2) = msg
         ∧ log w2 = log w'
         ∧ lastState w2 = lastState w'
         ∧ btnPlay_disabled (document w2) = btnPlay_disabled (document w')
         ∧ btnStop_disabled (document w2) = btnStop_disabled (document w')
         ∧ btnRewind_disabled (document w2) = btnRewind_disabled (document w')
         ∧ btnForward_disabled (document w2)
           = btnForward_disabled (document w'))
    ∧ (∀ msg,
         let w2 := step w1 (EvSignal h (TTS.LoadFailed 1 msg)) in
         lastState w2 = "error"
         ∧ elChapter (document w2) = "Failed to load book"
         ∧ elSentence (document w2) = msg
         ∧ btnPlay_disabled (document w2) = true
         ∧ btnStop_disabled (document w2) = true
         ∧ btnRewind_disabled (document w2) = true
         ∧ btnForward_disabled (document w2) = true).
Proof.
  intros Hs w1.
  destruct (openReader_loading_first book w Hs)
    as (h & before & after & H1 & H2 & H3 & H4 & H5 & H6 & H7 & H8 & H9).
  exists h, before, after. repeat (split; [assumption|]). split.
  - intros w' msg Hw'. destruct (H9 w' msg Hw') as (?&?&?&?&?&?&?&?&?).
    by repeat split.
  - intros msg. by apply open_rejected_not_ready.
Qed.

End with_engine.


(** ** The properties on the sample data *)

(** The history of [Sample.playing], event by event. *)
Local Abbreviation playing_history :=
  (@run TTS.engine (init blank true Sample.store)
     [EvOpenReader Sample.book; @EvSignal TTS.engine 1 (TTS.Loaded 1);
      EvPlay]).

Lemma play_control_toggles_witness :
  let e := {| key := " "; target_in_control := false |} in
  engine playing_history = Some 1
  ∧ engine_calls (appended playing_history (onPlayClick playing_history))
    = [(1, if bool_decide (last_rendered (log playing_history)
                           = Some "playing") then MPause else MPlay)]
  ∧ engine_calls (appended playing_history (_onKeyDown e playing_history))
    = [(1, if bool_decide (last_rendered (log playing_history)
                           = Some "playing") then MPause else MPlay)]
  ∧ last_rendered (log playing_history) = Some "playing".
Proof.
  intros e.
  assert (engine playing_history = Some 1) as He by (vm_compute; reflexivity).
  split; [exact He|].
  destruct (@play_control_toggles TTS.engine blank true Sample.store
              [EvOpenReader Sample.book;
               @EvSignal TTS.engine 1 (TTS.Loaded 1); EvPlay]
              1 e He) as [H1 H2].
  split; [exact H1|]. split; [exact (H2 eq_refl eq_refl)|].
  vm_compute; reflexivity.
Defined.

(** C9 as stated fails for the Space key: pressed while the target of the
    event is inside a button (or an input, textarea or select), with an
    engine held and the last rendered state ['playing'], it calls neither
    [pause] nor [play]. *)
Lemma space_in_control_ignored :
  let w := Sample.playing in
  let e := {| key := " "; target_in_control := true |} in
  engine w = Some 1
  ∧ last_rendered (log w) = Some "playing"
  ∧ engine_calls (appended w (_onKeyDown e w)) = [].
Proof. vm_compute. by repeat split. Qed.


Local Abbreviation rewound_history :=
  (@run TTS.engine (init blank true Sample.store)
     [EvOpenReader Sample.book; @EvSignal TTS.engine 1 (TTS.Loaded 1);
      EvRewind]).


Lemma open_renders_loading_first_witness :
  let w := Sample.page in
  let w1 := openReader Sample.book w in
  speech_supported w = true
  ∧ ∃ h before after,
      engine w1 = Some h
      ∧ appended w w1 = before ++ ARender loading_payload :: ANew h :: after
      ∧ engine_calls after = [(h, MOpen 7)].
Proof.
  intros w w1. split; [reflexivity|].
  destruct (open_renders_loading_first Sample.book w eq_refl)
    as (h & before & after & H1 & _ & H3 & _ & H5 & _).
  exists h, before, after. split; [exact H1|]. split; [exact H3|exact H5].
Defined.

(** C8 as stated fails for a browser without speech synthesis: there
    [openReader] alerts and returns; it renders nothing, so the view never
    shows the loading state, and it constructs no engine. *)
Lemma open_unsupported_renders_nothing :
  let w := init (E:=TTS.engine) blank false Sample.store in
  let w1 := openReader Sample.book w in
  appended w w1
    = [AAlert "Text-to-speech is not supported in this browser."]
  ∧ last_rendered (log w1) = None
  ∧ readerView_state (document w1) ≠ "loading"
  ∧ readerView_hidden (document w1) = true
  ∧ engine w1 = None.
Proof. vm_compute. by repeat split. Qed.

(** * Further properties of the reader *)

Section lifetime.
Import Lifecycle.
Context {E : Engine}.

Implicit Types (w : World) (h : handle) (m : method) (l : list action).

(** ** What the engine cannot touch *)

Lemma frame_render p w : frame (_render p w) = frame w.
Proof. reflexivity. Qed.

Lemma frame_deliver ps w : frame (deliver ps w) = frame w.
Proof.
  revert w. induction ps as [|p ps IH]; intros w; simpl; [done|].
  by rewrite IH, frame_render.
Qed.

Lemma frame_invoke h m w : frame (invoke h m w) = frame w.
Proof.
  unfold invoke. cbn [heap store add_log set_log].
  destruct (heap w !! h) as [e|]; [|done].
  destruct (e_call m e (store w)) as [[e' s'] ps]. by rewrite frame_deliver.
Qed.

Lemma frame_engine_opt m w : frame (engine_opt m w) = frame w.
Proof. unfold engine_opt. destruct (engine w); [apply frame_invoke|done]. Qed.

Lemma frame_destroyEngine w : frame (_destroyEngine w) = frame w.
Proof.
  unfold _destroyEngine. cbv zeta.
  transitivity (frame (engine_opt MDestroy w)); [done|apply frame_engine_opt].
Qed.

Lemma frame_start_engine book w : frame (start_engine book w) = frame w.
Proof.
  unfold start_engine. cbv zeta.
  match goal with
  | |- frame (set_awaiting _ (invoke ?h ?m ?W)) = _ =>
      transitivity (frame (invoke h m W)); [done|]; rewrite frame_invoke
  end.
  match goal with
  | |- frame (set_engine _ (deliver ?ps ?W)) = _ =>
      transitivity (frame (deliver ps W)); [done|]; rewrite frame_deliver
  end.
  reflexivity.
Qed.

Lemma frame_resume h r w : frame (openReader_resume h r w) = frame w.
Proof. unfold openReader_resume. case_bool_decide; [|done]. by destruct r. Qed.

Lemma frame_signal h s w : frame (signal h s w) = frame w.
Proof.
  unfold signal. destruct (heap w !! h) as [e|]; [|done].
  destruct (e_signal s e (store w)) as [[[e' s'] ps] r].
  destruct r as [r|]; [rewrite frame_resume|]; by rewrite frame_deliver.
Qed.

Lemma frame_onPlayClick w : frame (onPlayClick w) = frame w.
Proof.
  unfold onPlayClick. destruct (engine w); [|done].
  destruct (String.eqb _ _); apply frame_invoke.
Qed.

Lemma next_id_deliver ps w : next_id (deliver ps w) = next_id w.
Proof.
  revert w. induction ps as [|p ps IH]; intros w; simpl; [done|].
  by rewrite IH.
Qed.

Lemma next_id_destroyEngine w : next_id (_destroyEngine w) = next_id w.
Proof.
  unfold _destroyEngine, engine_opt. cbn [next_id set_lastState set_engine].
  destruct (engine w) as [h|]; [|done].
  unfold invoke. cbn [heap store add_log set_log].
  destruct (heap w !! h) as [e|]; [|done].
  destruct (e_call MDestroy e (store w)) as [[e' s'] ps].
  by rewrite next_id_deliver.
Qed.

(** The tail of [closeReader], after the engine is gone. *)
Lemma closeReader_frame w : frame (closeReader w) = closed_frame (frame w).
Proof.
  unfold closeReader. cbv zeta.
  rewrite <-(frame_engine_opt MStop w),
    <-(frame_destroyEngine (engine_opt MStop w)).
  generalize (_destroyEngine (engine_opt MStop w)). intros w0.
  destruct w0 as [en cu ls kb d li sup hp aw st ou ni lg].
  unfold _releaseCover, abort, frame, chrome, closed_frame.
  destruct cu as [u|], kb as [k|]; simpl; try case_bool_decide; reflexivity.
Qed.

Lemma frame_releaseCover w : frame (_releaseCover w) = released_frame (frame w).
Proof.
  destruct w as [en cu ls kb d li sup hp aw st ou ni lg].
  unfold _releaseCover. by destruct cu.
Qed.

Lemma next_id_releaseCover w : next_id (_releaseCover w) = next_id w.
Proof. unfold _releaseCover. by destruct (coverUrl w). Qed.

Lemma frame_show_book book w :
  frame (show_book book w)
  = let '(c, urls, kb, l, sup, _) := frame w in
    let title := Db.b_title (Db.row book) in
    match Db.b_coverBlob (Db.row book) with
    | Some _ =>
        (Some (next_id w), {[next_id w]} ∪ urls, kb, l, sup,
         (false, true, true, title, CoverImg (next_id w) title))
    | None =>
        (c, urls, kb, l, sup,
         (false, true, true, title, CoverPlaceholder title))
    end.
Proof.
  destruct w as [en cu ls kb d li sup hp aw st ou ni lg].
  unfold show_book. by destruct (Db.b_coverBlob (Db.row book)).
Qed.

Lemma next_id_show_book book w :
  next_id (show_book book w)
  = match Db.b_coverBlob (Db.row book) with
    | Some _ => S (next_id w)
    | None => next_id w
    end.
Proof. unfold show_book. by destruct (Db.b_coverBlob (Db.row book)). Qed.

Lemma frame_listen_keys w :
  frame (listen_keys w)
  = let '(c, urls, _, l, sup, ch) := frame w in
    (c, urls, Some (next_id w),
     match l with Some x => Some x | None => Some (next_id w) end, sup, ch).
Proof.
  destruct w as [en cu ls kb d li sup hp aw st ou ni lg].
  unfold listen_keys, add_keydown_listener. by destruct li.
Qed.

Lemma openReader_unsupported_frame book w :
  speech_supported w = false →
  frame (openReader book w) = released_frame (frame w).
Proof.
  intros Hs. rewrite openReader_unsupported by done.
  transitivity (frame (_releaseCover (_destroyEngine w))); [done|].
  by rewrite frame_releaseCover, frame_destroyEngine.
Qed.

Lemma openReader_supported_frame book w :
  speech_supported w = true →
  frame (openReader book w) = opened_frame book (next_id w) (frame w).
Proof.
  intros Hs. rewrite openReader_supported by done.
  rewrite frame_start_engine, frame_listen_keys, frame_render.
  change (next_id (_render ?p ?W)) with (next_id W).
  rewrite frame_show_book, next_id_show_book, next_id_releaseCover.
  rewrite frame_releaseCover, next_id_destroyEngine, frame_destroyEngine.
  destruct (frame w) as [[[[[c urls] kb] l] sup] [[[[rh mh] hh] t] cv]].
  unfold opened_frame, released_frame.
  by destruct (Db.b_coverBlob (Db.row book)), c, l.
Qed.

Lemma onKeyDown_shape e w :
  (frame (_onKeyDown e w) = frame w ∧ engine (_onKeyDown e w) = engine w)
  ∨ (frame (_onKeyDown e w) = closed_frame (frame w)
     ∧ engine (_onKeyDown e w) = None).
Proof.
  unfold _onKeyDown. destruct (target_in_control e); [by left|].
  destruct (String.eqb (key e) " ").
  { left. cbv zeta.
    destruct (String.eqb _ _); by rewrite frame_engine_opt, engine_engine_opt. }
  destruct (String.eqb (key e) "ArrowLeft");
    [left; by rewrite frame_engine_opt, engine_engine_opt|].
  destruct (String.eqb (key e) "ArrowRight");
    [left; by rewrite frame_engine_opt, engine_engine_opt|].
  destruct (String.eqb (key e) "Escape"); [|by left].
  right. split; [apply closeReader_frame|apply engine_closeReader].
Qed.

Lemma engine_onPlayClick w : engine (onPlayClick w) = engine w.
Proof.
  unfold onPlayClick. destruct (engine w) eqn:He; [|done].
  destruct (String.eqb _ _); by rewrite engine_invoke.
Qed.

Lemma engine_signal h s w : engine (signal h s w) = engine w.
Proof.
  unfold signal. destruct (heap w !! h) as [e|]; [|done].
  destruct (e_signal s e (store w)) as [[[e' s'] ps] r].
  destruct r as [r|].
  - destruct (resume_frame h r (deliver ps
        (set_store s' (set_heap (<[h:=e']> (heap w)) w)))) as (_ & -> & _).
    by rewrite engine_deliver.
  - by rewrite engine_deliver.
Qed.

(** What an event makes of the frame and of the variable [engine]:
    nothing; or the reader is closed; or a book is opened; or, without
    speech synthesis, the cover is released. *)
Lemma step_shape w ev :
  (frame (step w ev) = frame w ∧ engine (step w ev) = engine w)
  ∨ (frame (step w ev) = closed_frame (frame w) ∧ engine (step w ev) = None)
  ∨ (∃ book, ev = EvOpenReader book ∧ speech_supported w = true
       ∧ frame (step w ev) = opened_frame book (next_id w) (frame w)
       ∧ engine (step w ev) ≠ None)
  ∨ (∃ book, ev = EvOpenReader book ∧ speech_supported w = false
       ∧ frame (step w ev) = released_frame (frame w)
       ∧ engine (step w ev) = None).
Proof.
  destruct ev as [book| | | | | | |e|h s]; cbn [step].
  - destruct (speech_supported w) eqn:Hs.
    + right; right; left. exists book. split; [done|]. split; [done|].
      split; [by apply openReader_supported_frame|].
      destruct (openReader_log book w Hs) as (h & ps & -> & _). done.
    + right; right; right. exists book. split; [done|]. split; [done|].
      split; [by apply openReader_unsupported_frame|].
      rewrite openReader_unsupported by done.
      cbn [engine add_log set_log]. by rewrite engine_releaseCover.
  - right; left. split; [apply closeReader_frame|apply engine_closeReader].
  - right; left. split; [apply closeReader_frame|apply engine_closeReader].
  - left. split; [apply frame_onPlayClick|apply engine_onPlayClick].
  - left. split; [apply frame_engine_opt|apply engine_engine_opt].
  - left. split; [apply frame_engine_opt|apply engine_engine_opt].
  - left. split; [apply frame_engine_opt|apply engine_engine_opt].
  - destruct (onKeyDown_shape e w) as [H|H]; [by left|by right; left].
  - left. split; [apply frame_signal|apply engine_signal].
Qed.

End lifetime.

Section lifetime_invariants.
Import Lifecycle.
Context {E : Engine}.

Implicit Types (w : World) (h : handle) (m : method) (l : list action).

Lemma frame_parts w w' :
  frame w' = frame w →
  coverUrl w' = coverUrl w ∧ object_urls w' = object_urls w
  ∧ kbAbort w' = kbAbort w ∧ keydown_listener w' = keydown_listener w
  ∧ speech_supported w' = speech_supported w
  ∧ chrome (document w') = chrome (document w).
Proof.
  unfold frame, chrome. intros H. injection H. intros.
  repeat split; congruence.
Qed.

Lemma closed_parts w w' :
  frame w' = closed_frame (frame w) →
  coverUrl w' = None
  ∧ object_urls w' = revoke_cover (coverUrl w) (object_urls w)
  ∧ kbAbort w' = None
  ∧ keydown_listener w'
    = match kbAbort w with
      | Some k =>
          if bool_decide (keydown_listener w = Some k) then None
          else keydown_listener w
      | None => keydown_listener w
      end
  ∧ speech_supported w' = speech_supported w
  ∧ chrome (document w')
    = (true, false, false, elBookTitle (document w), CoverEmpty).
Proof.
  unfold frame, chrome, closed_frame. intros H. injection H. intros.
  repeat split; congruence.
Qed.

Lemma released_parts w w' :
  frame w' = released_frame (frame w) →
  coverUrl w' = None
  ∧ object_urls w' = revoke_cover (coverUrl w) (object_urls w)
  ∧ kbAbort w' = kbAbort w ∧ keydown_listener w' = keydown_listener w
  ∧ speech_supported w' = speech_supported w
  ∧ chrome (document w')
    = (readerView_hidden (document w), main_hidden (document w),
       header_hidden (document w), elBookTitle (document w), CoverEmpty).
Proof.
  unfold frame, chrome, released_frame. intros H. injection H. intros.
  repeat split; congruence.
Qed.

Lemma opened_parts book n w w' :
  frame w' = opened_frame book n (frame w) →
  speech_supported w' = speech_supported w
  ∧ keydown_listener w' ≠ None ∧ kbAbort w' ≠ None
  ∧ (keydown_listener w = None → keydown_listener w' = kbAbort w')
  ∧ ∃ cv,
      chrome (document w')
      = (false, true, true, Db.b_title (Db.row book), cv)
      ∧ match Db.b_coverBlob (Db.row book) with
        | Some _ =>
            cv = CoverImg n (Db.b_title (Db.row book))
            ∧ coverUrl w' = Some n
            ∧ object_urls w'
              = {[n]} ∪ revoke_cover (coverUrl w) (object_urls w)
        | None =>
            cv = CoverPlaceholder (Db.b_title (Db.row book))
            ∧ coverUrl w' = None
            ∧ object_urls w' = revoke_cover (coverUrl w) (object_urls w)
        end.
Proof.
  unfold frame, chrome, opened_frame.
  destruct (Db.b_coverBlob (Db.row book)), (keydown_listener w);
    intros H; injection H; intros;
    (split; [congruence|]); (split; [congruence|]); (split; [congruence|]);
    (split; [congruence|]); eexists; (split; [repeat f_equal; eassumption|]);
    repeat split; congruence.
Qed.

Lemma revoke_cover_set c : revoke_cover c (cover_set c) = ∅.
Proof. destruct c; simpl; [apply difference_diag_L|done]. Qed.

(** ** The cover's object URL *)

Lemma cover_inv_step w ev : cover_inv w → cover_inv (step w ev).
Proof.
  unfold cover_inv. intros Hw.
  destruct (step_shape w ev)
    as [[Hf _]|[[Hf _]|[(book & _ & _ & Hf & _)|(book & _ & _ & Hf & _)]]].
  - apply frame_parts in Hf as (-> & -> & _). exact Hw.
  - apply closed_parts in Hf as (-> & -> & _).
    by rewrite Hw, revoke_cover_set.
  - apply opened_parts in Hf as (_ & _ & _ & _ & cv & _ & Hc).
    rewrite Hw, revoke_cover_set in Hc.
    destruct (Db.b_coverBlob (Db.row book)); destruct Hc as (_ & -> & ->);
      simpl; [apply union_empty_r_L|done].
  - apply released_parts in Hf as (-> & -> & _).
    by rewrite Hw, revoke_cover_set.
Qed.

Lemma cover_inv_run w evs : cover_inv w → cover_inv (run w evs).
Proof.
  revert w. induction evs as [|ev evs IH]; intros w Hw; [done|].
  simpl. by apply IH, cover_inv_step.
Qed.

(** X1: whatever happens to the reader, the object URLs it created and
    has not revoked are exactly the one the variable [coverUrl] holds: at
    most one is alive, and none is left behind when [coverUrl] is
    [null]. *)
Theorem cover_url_never_leaks (d : Dom) (sup : bool) (s : store_t)
    (evs : list event) :
  let w := run (init d sup s) evs in
  object_urls w = cover_set (coverUrl w)
  ∧ size (object_urls w) ≤ 1
  ∧ (coverUrl w = None → object_urls w = ∅).
Proof.
  intros w. assert (cover_inv w) as Hw by (by apply cover_inv_run).
  unfold cover_inv in Hw. split; [exact Hw|]. split.
  - rewrite Hw. destruct (coverUrl w); unfold cover_set;
      [rewrite size_singleton|rewrite size_empty]; lia.
  - intros Hc. by rewrite Hw, Hc.
Qed.

Lemma cover_shown_step w ev : cover_shown_inv w → cover_shown_inv (step w ev).
Proof.
  unfold cover_shown_inv. intros Hw u t.
  destruct (step_shape w ev)
    as [[Hf _]|[[Hf _]|[(book & _ & _ & Hf & _)|(book & _ & _ & Hf & _)]]].
  - apply frame_parts in Hf as (-> & _ & _ & _ & _ & Hc).
    unfold chrome in Hc. injection Hc as _ _ _ _ ->. apply Hw.
  - apply closed_parts in Hf as (_ & _ & _ & _ & _ & Hc).
    unfold chrome in Hc. injection Hc as _ _ _ _ ->. done.
  - apply opened_parts in Hf as (_ & _ & _ & _ & cv & Hc & Hb).
    unfold chrome in Hc. injection Hc as _ _ _ _ ->.
    destruct (Db.b_coverBlob (Db.row book)); destruct Hb as (-> & -> & _);
      [by intros [= -> _]|done].
  - apply released_parts in Hf as (_ & _ & _ & _ & _ & Hc).
    unfold chrome in Hc. injection Hc as _ _ _ _ ->. done.
Qed.

Lemma cover_shown_run w evs : cover_shown_inv w → cover_shown_inv (run w evs).
Proof.
  revert w. induction evs as [|ev evs IH]; intros w Hw; [done|].
  simpl. by apply IH, cover_shown_step.
Qed.

(** X2: if the page starts without a cover image, a cover image the
    reader shows is always the image of the object URL [coverUrl] holds,
    and that URL has not been revoked. *)
Theorem shown_cover_is_live (d : Dom) (sup : bool) (s : store_t)
    (evs : list event) (u : nat) (t : string) :
  (∀ u' t', elCover d ≠ CoverImg u' t') →
  let w := run (init d sup s) evs in
  elCover (document w) = CoverImg u t →
  coverUrl w = Some u ∧ u ∈ object_urls w.
Proof.
  intros Hd w Hc.
  assert (cover_shown_inv w) as Hw.
  { apply cover_shown_run. intros u' t' Hi. by destruct (Hd u' t'). }
  assert (cover_inv w) as Hu by (by apply cover_inv_run).
  specialize (Hw u t Hc). split; [exact Hw|].
  unfold cover_inv in Hu. rewrite Hu, Hw. unfold cover_set.
  by apply elem_of_singleton.
Qed.

(** ** Reader or library *)

Lemma chrome_shown d d' :
  chrome d' = chrome d →
  (reader_shown d → reader_shown d') ∧ (library_shown d → library_shown d').
Proof.
  unfold chrome, reader_shown, library_shown. by intros [= -> -> -> _ _].
Qed.

Lemma vis_inv_step lib0 w ev : vis_inv lib0 w → vis_inv lib0 (step w ev).
Proof.
  intros (H1 & H2 & H3).
  destruct (step_shape w ev)
    as [[Hf He]|[[Hf He]|[(book & _ & Hs & Hf & He)
                         |(book & _ & Hs & Hf & He)]]];
    unfold vis_inv; rewrite ?He.
  - apply frame_parts in Hf as (_ & _ & -> & -> & -> & Hc).
    apply chrome_shown in Hc as [Hc1 Hc2].
    split; [intros Hne; destruct (H1 Hne) as (? & ? & ?); auto|].
    split; [intros Hl Hn; by apply Hc2, H2|exact H3].
  - apply closed_parts in Hf as (_ & _ & _ & _ & _ & Hc).
    unfold chrome in Hc. injection Hc as Hc1 Hc2 Hc3 _ _.
    split; [done|]. split; [|done]. by intros _ _.
  - apply opened_parts in Hf as (Hsup & Hl & Hk & _ & cv & Hc & _).
    unfold chrome in Hc. injection Hc as Hc1 Hc2 Hc3 _ _.
    split; [by intros _|]. split; [done|]. rewrite Hsup, Hs. done.
  - apply released_parts in Hf as (_ & _ & _ & _ & _ & Hc).
    unfold chrome in Hc. injection Hc as Hc1 Hc2 Hc3 _ _.
    split; [done|]. split; [|done]. intros Hlib _.
    destruct (H2 Hlib (H3 Hs)) as (? & ? & ?).
    unfold library_shown. by rewrite Hc1, Hc2, Hc3.
Qed.

Lemma vis_inv_run lib0 w evs : vis_inv lib0 w → vis_inv lib0 (run w evs).
Proof.
  revert w. induction evs as [|ev evs IH]; intros w Hw; [done|].
  simpl. by apply IH, vis_inv_step.
Qed.

(** X3: while an engine is held the reader is shown and the library
    hidden, and the keydown listener is registered with a controller in
    [kbAbort]; and if the page starts on the library, the library is
    shown, and the reader hidden, whenever no engine is held. *)
Theorem reader_shown_while_engine_held (d : Dom) (sup : bool) (s : store_t)
    (evs : list event) :
  let w := run (init d sup s) evs in
  (engine w ≠ None →
   reader_shown (document w) ∧ keydown_listener w ≠ None ∧ kbAbort w ≠ None)
  ∧ (library_shown d → engine w = None → library_shown (document w)).
Proof.
  intros w.
  destruct (vis_inv_run (library_shown d) (init d sup s) evs) as (H1 & H2 & _).
  { split; [done|]. split; [by intros Hd _|done]. }
  split; [exact H1|exact H2].
Qed.

(** ** The keyboard listener *)

Lemma kb_ok_step w ev : is_open ev = false → kb_ok w → kb_ok (step w ev).
Proof.
  intros Hev Hw. unfold kb_ok in *.
  destruct (step_shape w ev)
    as [[Hf _]|[[Hf _]|[(book & -> & _)|(book & -> & _)]]]; try done.
  - apply frame_parts in Hf as (_ & _ & -> & -> & _). exact Hw.
  - apply closed_parts in Hf as (_ & _ & -> & -> & _). left.
    destruct (kbAbort w) as [k|] eqn:Hkk; [|by destruct Hw].
    case_bool_decide; [done|]. by destruct Hw.
Qed.

Lemma kb_ok_run w evs :
  forallb (λ ev, negb (is_open ev)) evs = true → kb_ok w → kb_ok (run w evs).
Proof.
  revert w. induction evs as [|ev evs IH]; intros w Hevs Hw; [done|].
  simpl in *. apply andb_true_iff in Hevs as [Hev Hevs].
  apply IH; [done|]. apply kb_ok_step; [|done]. by destruct (is_open ev).
Qed.

Lemma kb_ok_openReader book w :
  keydown_listener w = None → kb_ok (openReader book w).
Proof.
  intros Hl. unfold kb_ok. destruct (speech_supported w) eqn:Hs.
  - apply openReader_supported_frame with (book := book) in Hs.
    apply opened_parts in Hs as (_ & _ & _ & Hk & _). right. by apply Hk.
  - apply openReader_unsupported_frame with (book := book) in Hs.
    apply released_parts in Hs as (_ & _ & _ & -> & _). by left.
Qed.

(** X4: when no keydown listener is registered as a book is opened, the
    listener [openReader] adds is removed again by [closeReader],
    whatever happens in between short of another [openReader]; and
    [kbAbort] is back to [null]. *)
Theorem close_removes_key_listener (book : Db.Book) (w : World)
    (evs : list event) :
  keydown_listener w = None →
  forallb (λ ev, negb (is_open ev)) evs = true →
  let w' := closeReader (run (openReader book w) evs) in
  keydown_listener w' = None ∧ kbAbort w' = None.
Proof.
  intros Hl Hevs w'.
  assert (kb_ok (run (openReader book w) evs)) as Hk
    by (by apply kb_ok_run, kb_ok_openReader).
  destruct (closed_parts _ _ (closeReader_frame (run (openReader book w) evs)))
    as (_ & _ & Hkb & Hli & _).
  split; [|exact Hkb]. unfold w'. rewrite Hli. unfold kb_ok in Hk.
  destruct (kbAbort (run (openReader book w) evs)) as [k|] eqn:Hkk;
    [|by destruct Hk].
  case_bool_decide; [done|]. by destruct Hk.
Qed.

End lifetime_invariants.

(** ** Method calls reach a live engine *)

Section calls.
Import Lifecycle.
Context {E : Engine}.

Implicit Types (w : World) (h : handle) (m : method) (l : list action).

Lemma calls_ok_app s l l' :
  calls_ok s (l ++ l') ↔ calls_ok s l ∧ calls_ok (foldl live_step s l) l'.
Proof.
  revert s. induction l as [|a l IH]; intros s; simpl; [tauto|].
  rewrite IH. tauto.
Qed.

Lemma calls_ok_renders s ps :
  calls_ok s (ARender <$> ps) ∧ foldl live_step s (ARender <$> ps) = s.
Proof. induction ps as [|p ps [IH1 IH2]]; simpl; [done|]. by split. Qed.

Lemma calls_ok_lookup s l k h m :
  calls_ok s l → l !! k = Some (ACall h m) →
  h ∈ foldl live_step s (take k l).
Proof.
  revert s k. induction l as [|a l IH]; intros s k Hl Hk; [done|].
  destruct Hl as [Ha Hl]. destruct k as [|k]; simpl in *.
  - injection Hk as ->. exact Ha.
  - by apply IH.
Qed.

Lemma continues_refl w w' :
  log w' = log w → engine w' = engine w → continues w w'.
Proof.
  intros Hl He. exists []. rewrite Hl, He, app_nil_r. by repeat split.
Qed.

Lemma continues_trans w1 w2 w3 :
  continues w1 w2 → continues w2 w3 → continues w1 w3.
Proof.
  intros (l1 & Hl1 & Hc1 & Hf1) (l2 & Hl2 & Hc2 & Hf2). exists (l1 ++ l2).
  split; [by rewrite Hl2, Hl1, app_assoc|].
  split; [apply calls_ok_app; by rewrite Hf1|].
  by rewrite foldl_app, Hf1.
Qed.

Lemma continues_inv w w' : continues w w' → calls_inv w → calls_inv w'.
Proof.
  intros (l & Hl & Hc & Hf) [H1 H2]. unfold calls_inv, live_of in *.
  rewrite Hl. split; [apply calls_ok_app; by rewrite H2|].
  by rewrite foldl_app, H2.
Qed.

Lemma continues_add_log a w :
  match a with AAlert _ | APreventDefault => True | _ => False end →
  continues w (add_log a w).
Proof. intros Ha. exists [a]. by destruct a. Qed.

Lemma continues_render p w : continues w (_render p w).
Proof. exists [ARender p]. by rewrite log_render. Qed.

Lemma continues_invoke h m w :
  engine w = Some h → m ≠ MDestroy → continues w (invoke h m w).
Proof.
  intros He Hm. destruct (log_invoke h m w) as [ps Hps].
  exists (ACall h m :: (ARender <$> ps)). split; [exact Hps|].
  rewrite engine_invoke, He. destruct (calls_ok_renders {[h]} ps) as [H1 H2].
  cbn [calls_ok foldl held].
  replace (live_step {[h]} (ACall h m)) with ({[h]} : gset handle)
    by (by destruct m).
  split; [|exact H2]. split; [by apply elem_of_singleton|exact H1].
Qed.

Lemma continues_engine_opt m w :
  m ≠ MDestroy → continues w (engine_opt m w).
Proof.
  intros Hm. unfold engine_opt. destruct (engine w) as [h|] eqn:He.
  - by apply continues_invoke.
  - by apply continues_refl.
Qed.

Lemma continues_destroyEngine w : continues w (_destroyEngine w).
Proof.
  unfold continues. replace (engine (_destroyEngine w)) with (@None handle)
    by reflexivity.
  replace (log (_destroyEngine w)) with (log (engine_opt MDestroy w))
    by reflexivity.
  unfold engine_opt. destruct (engine w) as [h|] eqn:He.
  - destruct (log_invoke h MDestroy w) as [ps Hps].
    exists (ACall h MDestroy :: (ARender <$> ps)). split; [exact Hps|].
    destruct (calls_ok_renders ({[h]} ∖ {[h]}) ps) as [H1 H2].
    cbn [calls_ok foldl held live_step].
    split; [split; [by apply elem_of_singleton|exact H1]|].
    rewrite H2. apply difference_diag_L.
  - exists []. by rewrite app_nil_r.
Qed.

Lemma continues_start_engine book w :
  engine w = None → continues w (start_engine book w).
Proof.
  intros He. destruct (start_engine_log book w) as (ps & Hn & _ & Hlog).
  eexists. split; [exact Hlog|]. rewrite He, Hn.
  cbn [calls_ok foldl held live_step].
  rewrite calls_ok_app, foldl_app.
  rewrite !(proj2 (calls_ok_renders _ _)). cbn [calls_ok foldl live_step].
  rewrite !(proj2 (calls_ok_renders _ _)).
  split; [|apply union_empty_r_L].
  split; [done|]. split; [apply calls_ok_renders|].
  split; [|apply calls_ok_renders].
  apply elem_of_union_l. by apply elem_of_singleton.
Qed.

Lemma engine_show_book book w : engine (show_book book w) = engine w.
Proof. unfold show_book. by destruct (Db.b_coverBlob (Db.row book)). Qed.

Lemma engine_listen_keys w : engine (listen_keys w) = engine w.
Proof.
  unfold listen_keys, add_keydown_listener.
  cbn [keydown_listener set_kbAbort set_next_id].
  by destruct (keydown_listener w).
Qed.

Lemma continues_openReader book w : continues w (openReader book w).
Proof.
  destruct (speech_supported w) eqn:Hs.
  - rewrite openReader_supported by done.
    eapply continues_trans; [apply continues_destroyEngine|].
    eapply continues_trans;
      [apply (continues_refl _ (show_book book (_releaseCover (_destroyEngine w))))|].
    { by rewrite log_show_book, log_releaseCover. }
    { by rewrite engine_show_book, engine_releaseCover. }
    eapply continues_trans; [apply continues_render|].
    eapply continues_trans;
      [apply continues_refl; [apply log_listen_keys|apply engine_listen_keys]|].
    apply continues_start_engine. rewrite engine_listen_keys.
    change (engine (_render ?p ?W)) with (engine W).
    by rewrite engine_show_book, engine_releaseCover.
  - rewrite openReader_unsupported by done.
    eapply continues_trans; [apply continues_destroyEngine|].
    eapply continues_trans;
      [apply continues_refl; [apply log_releaseCover|apply engine_releaseCover]|].
    by apply continues_add_log.
Qed.

Lemma continues_closeReader w : continues w (closeReader w).
Proof.
  eapply continues_trans; [by apply (continues_engine_opt MStop)|].
  eapply continues_trans; [apply continues_destroyEngine|].
  apply continues_refl.
  - apply log_closeReader.
  - by rewrite engine_closeReader.
Qed.

Lemma continues_onPlayClick w : continues w (onPlayClick w).
Proof.
  unfold onPlayClick. destruct (engine w) as [h|] eqn:He;
    [|by apply continues_refl].
  destruct (String.eqb _ _); by apply continues_invoke.
Qed.

Lemma continues_onKeyDown e w : continues w (_onKeyDown e w).
Proof.
  unfold _onKeyDown. destruct (target_in_control e); [by apply continues_refl|].
  assert (continues w (add_log APreventDefault w)) as Hpd
    by (by apply continues_add_log).
  destruct (String.eqb (key e) " ").
  { cbv zeta. eapply continues_trans; [exact Hpd|].
    destruct (String.eqb _ _); by apply continues_engine_opt. }
  destruct (String.eqb (key e) "ArrowLeft").
  { eapply continues_trans; [exact Hpd|]. by apply continues_engine_opt. }
  destruct (String.eqb (key e) "ArrowRight").
  { eapply continues_trans; [exact Hpd|]. by apply continues_engine_opt. }
  destruct (String.eqb (key e) "Escape"); [apply continues_closeReader|].
  by apply continues_refl.
Qed.

Lemma log_signal h s w :
  ∃ ps, log (signal h s w) = log w ++ (ARender <$> ps).
Proof.
  unfold signal. destruct (heap w !! h) as [e|];
    [|exists []; by rewrite app_nil_r].
  destruct (e_signal s e (store w)) as [[[e' s'] ps] r]. exists ps.
  destruct r as [r|].
  - destruct (resume_frame h r (deliver ps
        (set_store s' (set_heap (<[h:=e']> (heap w)) w)))) as (-> & _).
    by rewrite log_deliver.
  - by rewrite log_deliver.
Qed.

Lemma continues_signal h s w : continues w (signal h s w).
Proof.
  destruct (log_signal h s w) as [ps Hps].
  exists (ARender <$> ps). split; [exact Hps|]. rewrite engine_signal.
  apply calls_ok_renders.
Qed.

Lemma continues_step w ev : continues w (step w ev).
Proof.
  destruct ev as [book| | | | | | |e|h s]; cbn [step].
  - apply continues_openReader.
  - apply continues_closeReader.
  - apply continues_closeReader.
  - apply continues_onPlayClick.
  - by apply continues_engine_opt.
  - by apply continues_engine_opt.
  - by apply continues_engine_opt.
  - apply continues_onKeyDown.
  - apply continues_signal.
Qed.

Lemma calls_inv_run w evs : calls_inv w → calls_inv (run w evs).
Proof.
  revert w. induction evs as [|ev evs IH]; intros w Hw; [done|].
  simpl. apply IH. eapply continues_inv; [apply continues_step|done].
Qed.

(** X5: a method is only ever called on an engine that is live at that
    point: constructed before, and not destroyed since.  No call reaches
    an engine after its [destroy]. *)
Theorem calls_reach_live_engine (d : Dom) (sup : bool) (s : store_t)
    (evs : list event) (k : nat) (h : handle) (m : method) :
  let w := run (init d sup s) evs in
  log w !! k = Some (ACall h m) → h ∈ live_of (take k (log w)).
Proof.
  intros w Hk. destruct (calls_inv_run (init d sup s) evs) as [Hc _];
    [by split|].
  by eapply calls_ok_lookup.
Qed.

End calls.

(** ** Closing, and the controls with no book open *)

Section idle.
Import Lifecycle.
Context {E : Engine}.

Implicit Types (w : World) (h : handle) (m : method) (l : list action).

Lemma engine_opt_none m w : engine w = None → engine_opt m w = w.
Proof. intros He. unfold engine_opt. by rewrite He. Qed.

Lemma closeReader_closed w :
  engine w = None → lastState w = "idle" → coverUrl w = None →
  kbAbort w = None → elCover (document w) = CoverEmpty →
  library_shown (document w) → closeReader w = w.
Proof.
  destruct w as [en cu ls kb d li sup hp aw st ou ni lg].
  destruct d as [rh rs mh hh bt cv ch se fw la pi pt pa pd sd rd fd].
  unfold library_shown. cbn.
  intros -> -> -> -> -> (-> & -> & ->). reflexivity.
Qed.

Lemma lastState_closeReader w : lastState (closeReader w) = "idle".
Proof.
  unfold closeReader, _destroyEngine. cbv zeta.
  generalize (engine_opt MDestroy (engine_opt MStop w)). intros w0.
  destruct w0 as [en cu ls kb d li sup hp aw st ou ni lg].
  unfold _releaseCover, abort.
  destruct cu as [u|], kb as [k|]; simpl; try case_bool_decide; reflexivity.
Qed.

Lemma closed_rest w w' :
  frame w' = closed_frame (frame w) →
  coverUrl w' = None ∧ kbAbort w' = None
  ∧ elCover (document w') = CoverEmpty ∧ library_shown (document w').
Proof.
  intros Hf. apply closed_parts in Hf as (Hc & _ & Hk & _ & _ & Hch).
  unfold chrome in Hch. injection Hch as H1 H2 H3 _ H5. by repeat split.
Qed.

(** X6: [closeReader] leaves the module in its resting state (no engine,
    [lastState] ['idle'], no cover URL, no abort controller, the cover
    node empty, the library shown and the reader hidden), and a second
    [closeReader] changes nothing at all. *)
Theorem closeReader_settles (w : World) :
  let w' := closeReader w in
  engine w' = None ∧ lastState w' = "idle" ∧ coverUrl w' = None
  ∧ kbAbort w' = None ∧ elCover (document w') = CoverEmpty
  ∧ library_shown (document w')
  ∧ closeReader w' = w'.
Proof.
  intros w'.
  destruct (closed_rest w w' (closeReader_frame w)) as (Hc & Hk & Hcv & Hlib).
  assert (engine w' = None) as He by apply engine_closeReader.
  assert (lastState w' = "idle") as Hl by apply lastState_closeReader.
  repeat (split; [assumption|]). by apply closeReader_closed.
Qed.

Lemma closeReader_idle w :
  engine w = None →
  log (closeReader w) = log w ∧ store (closeReader w) = store w
  ∧ heap (closeReader w) = heap w.
Proof.
  destruct w as [en cu ls kb d li sup hp aw st ou ni lg]. cbn [engine].
  intros ->. unfold closeReader, _destroyEngine, engine_opt, _releaseCover, abort.
  destruct cu as [u|], kb as [k|]; simpl; try case_bool_decide; done.
Qed.

Lemma engine_calls_snoc_other l a :
  match a with ACall _ _ => False | _ => True end →
  engine_calls (l ++ [a]) = engine_calls l.
Proof.
  intros Ha. unfold engine_calls. rewrite omap_app.
  destruct a; simpl in *; try done; by rewrite app_nil_r.
Qed.

Lemma renders_snoc_other l a :
  match a with ARender _ => False | _ => True end →
  renders (l ++ [a]) = renders l.
Proof.
  intros Ha. unfold renders. rewrite omap_app.
  destruct a; simpl in *; try done; by rewrite app_nil_r.
Qed.

(** X7: while no engine is held (no book open), the playback buttons,
    the back button, [closeReader] and every key call no engine method,
    render nothing, and leave the record store and the engine objects
    alone. *)
Theorem idle_controls_inert (w : World) (ev : event) :
  engine w = None → is_control ev = true →
  let w' := step w ev in
  engine w' = None
  ∧ engine_calls (log w') = engine_calls (log w)
  ∧ renders (log w') = renders (log w)
  ∧ store w' = store w ∧ heap w' = heap w.
Proof.
  intros He Hev w'. subst w'.
  assert (∀ w0, engine w0 = None →
            engine (closeReader w0) = None
            ∧ engine_calls (log (closeReader w0)) = engine_calls (log w0)
            ∧ renders (log (closeReader w0)) = renders (log w0)
            ∧ store (closeReader w0) = store w0
            ∧ heap (closeReader w0) = heap w0) as Hclose.
  { intros w0 H0. destruct (closeReader_idle w0 H0) as (-> & -> & ->).
    by rewrite engine_closeReader. }
  assert (engine (add_log APreventDefault w) = None
          ∧ engine_calls (log (add_log APreventDefault w)) = engine_calls (log w)
          ∧ renders (log (add_log APreventDefault w)) = renders (log w)
          ∧ store (add_log APreventDefault w) = store w
          ∧ heap (add_log APreventDefault w) = heap w) as Hpd.
  { cbn [add_log set_log engine log store heap].
    by rewrite engine_calls_snoc_other, renders_snoc_other. }
  destruct ev as [book| | | | | | |e|h s]; cbn [step]; try done.
  - by apply Hclose.
  - by apply Hclose.
  - unfold onPlayClick. by rewrite He.
  - by rewrite engine_opt_none.
  - by rewrite engine_opt_none.
  - by rewrite engine_opt_none.
  - unfold _onKeyDown. destruct (target_in_control e); [done|].
    destruct (String.eqb (key e) " ").
    { cbv zeta. destruct (String.eqb _ _);
        by rewrite engine_opt_none by apply Hpd. }
    destruct (String.eqb (key e) "ArrowLeft");
      [by rewrite engine_opt_none by apply Hpd|].
    destruct (String.eqb (key e) "ArrowRight");
      [by rewrite engine_opt_none by apply Hpd|].
    destruct (String.eqb (key e) "Escape"); [by apply Hclose|done].
Qed.

(** X8: outside an input, textarea, select or button, the shortcut keys
    do what the buttons do: Space is a click on play (pause when playing,
    play otherwise), ArrowLeft on rewind, ArrowRight on forward, each
    after [preventDefault]; Escape is the back button, without
    [preventDefault]; every other key does nothing. *)
Theorem shortcuts_mirror_buttons (e : KeyEvent) (w : World) :
  target_in_control e = false →
  (key e = " " → _onKeyDown e w = step (add_log APreventDefault w) EvPlay)
  ∧ (key e = "ArrowLeft" →
     _onKeyDown e w = step (add_log APreventDefault w) EvRewind)
  ∧ (key e = "ArrowRight" →
     _onKeyDown e w = step (add_log APreventDefault w) EvForward)
  ∧ (key e = "Escape" → _onKeyDown e w = step w EvBack)
  ∧ (key e ∉ [" "; "ArrowLeft"; "ArrowRight"; "Escape"] →
     _onKeyDown e w = w).
Proof.
  intros Ht. unfold _onKeyDown. rewrite Ht. cbn [step].
  split; [|split; [|split; [|split]]].
  - intros ->. simpl (String.eqb _ _). cbv zeta.
    unfold onPlayClick, engine_opt. cbn [engine lastState add_log set_log].
    destruct (engine w); by destruct (String.eqb _ _).
  - by intros ->.
  - by intros ->.
  - by intros ->.
  - intros Hk. rewrite !not_elem_of_cons in Hk.
    destruct Hk as (H1 & H2 & H3 & H4 & _).
    apply String.eqb_neq in H1, H2, H3, H4. by rewrite H1, H2, H3, H4.
Qed.

End idle.

(** ** What the reader shows *)

Section rendering.
Import Lifecycle.
Context {E : Engine}.

Implicit Types (w : World) (h : handle) (m : method) (l : list action).

Lemma render_dom_absorbs p q d : _render_dom p (_render_dom q d) = _render_dom p d.
Proof. reflexivity. Qed.

Lemma render_dom_deliver p ps w :
  _render_dom p (document (deliver ps w)) = _render_dom p (document w).
Proof.
  revert w. induction ps as [|q ps IH]; intros w; simpl; [done|].
  by rewrite IH, dom_render, render_dom_absorbs.
Qed.

(** X9: after the engine has delivered a sequence of notifications, the
    reader shows what the last of them alone would have made it show, and
    [lastState] is its state: [_render] writes every node it touches, so
    nothing of an earlier notification is left over; and the title, the
    cover and the visibility of the reader are as before. *)
Theorem last_render_wins (ps : list RenderPayload) (p : RenderPayload)
    (w : World) :
  let w' := deliver (ps ++ [p]) w in
  document w' = _render_dom p (document w)
  ∧ lastState w' = state p
  ∧ frame w' = frame w.
Proof.
  intros w'. subst w'. unfold deliver. rewrite foldl_snoc. fold (deliver ps w).
  split; [by rewrite dom_render, render_dom_deliver|].
  split; [reflexivity|].
  by rewrite frame_render, frame_deliver.
Qed.

Lemma play_face_render p w : play_face (_render p w).
Proof.
  unfold play_face. rewrite dom_render.
  change (lastState (_render p w)) with (state p).
  cbn [_render_dom btnPlay_icon btnPlay_title btnPlay_aria readerView_state].
  by repeat split.
Qed.

Lemma play_face_deliver ps w : play_face w → play_face (deliver ps w).
Proof.
  revert w. induction ps as [|p ps IH]; intros w Hw; simpl; [done|].
  apply IH, play_face_render.
Qed.

Lemma play_face_keep w w' :
  lastState w' = lastState w →
  btnPlay_icon (document w') = btnPlay_icon (document w) →
  btnPlay_title (document w') = btnPlay_title (document w) →
  btnPlay_aria (document w') = btnPlay_aria (document w) →
  readerView_state (document w') = readerView_state (document w) →
  play_face w → play_face w'.
Proof. unfold play_face. by intros -> -> -> -> ->. Qed.

Lemma play_face_invoke h m w : play_face w → play_face (invoke h m w).
Proof.
  intros Hw. unfold invoke. cbn [heap store add_log set_log].
  destruct (heap w !! h) as [e|]; [|exact Hw].
  destruct (e_call m e (store w)) as [[e' s'] ps].
  apply play_face_deliver. exact Hw.
Qed.

Lemma play_face_engine_opt m w : play_face w → play_face (engine_opt m w).
Proof.
  unfold engine_opt. destruct (engine w); [apply play_face_invoke|done].
Qed.

Lemma play_face_listen_keys w : play_face w → play_face (listen_keys w).
Proof.
  unfold listen_keys, add_keydown_listener.
  cbn [keydown_listener set_kbAbort set_next_id].
  by destruct (keydown_listener w).
Qed.

Lemma play_face_start_engine book w :
  play_face w → play_face (start_engine book w).
Proof.
  intros Hw. unfold start_engine. cbv zeta.
  match goal with
  | |- play_face (set_awaiting _ (invoke ?h ?m ?W)) =>
      cut (play_face (invoke h m W)); [done|]; apply play_face_invoke
  end.
  match goal with
  | |- play_face (set_engine _ (deliver ?ps ?W)) =>
      cut (play_face (deliver ps W)); [done|]; apply play_face_deliver
  end.
  exact Hw.
Qed.

Lemma play_face_resume h r w :
  play_face w → play_face (openReader_resume h r w).
Proof.
  unfold openReader_resume. case_bool_decide; [|done]. by destruct r.
Qed.

Lemma play_face_signal h s w : play_face w → play_face (signal h s w).
Proof.
  intros Hw. unfold signal. destruct (heap w !! h) as [e|]; [|done].
  destruct (e_signal s e (store w)) as [[[e' s'] ps] r].
  destruct r as [r|]; [apply play_face_resume|]; by apply play_face_deliver.
Qed.

Lemma face_inv_keep w w' :
  (engine w' ≠ None → engine w ≠ None) → (play_face w → play_face w') →
  face_inv w → face_inv w'.
Proof. unfold face_inv. auto. Qed.

Lemma face_inv_none w : engine w = None → face_inv w.
Proof. by intros He Hn. Qed.

Lemma face_inv_step w ev : face_inv w → face_inv (step w ev).
Proof.
  intros Hw. destruct ev as [book| | | | | | |e|h s]; cbn [step].
  - destruct (speech_supported w) eqn:Hs.
    + intros _. rewrite openReader_supported by done.
      apply play_face_start_engine, play_face_listen_keys, play_face_render.
    + apply face_inv_none. rewrite openReader_unsupported by done.
      cbn [engine add_log set_log]. by rewrite engine_releaseCover.
  - apply face_inv_none, engine_closeReader.
  - apply face_inv_none, engine_closeReader.
  - revert Hw. apply face_inv_keep; [by rewrite engine_onPlayClick|].
    unfold onPlayClick. destruct (engine w); [|done].
    destruct (String.eqb _ _); apply play_face_invoke.
  - revert Hw. apply face_inv_keep;
      [by rewrite engine_engine_opt|apply play_face_engine_opt].
  - revert Hw. apply face_inv_keep;
      [by rewrite engine_engine_opt|apply play_face_engine_opt].
  - revert Hw. apply face_inv_keep;
      [by rewrite engine_engine_opt|apply play_face_engine_opt].
  - unfold _onKeyDown. destruct (target_in_control e); [done|].
    assert (face_inv (add_log APreventDefault w)) as Hpd by exact Hw.
    destruct (String.eqb (key e) " ").
    { cbv zeta. revert Hpd. destruct (String.eqb _ _); apply face_inv_keep;
        solve [by rewrite engine_engine_opt|apply play_face_engine_opt]. }
    destruct (String.eqb (key e) "ArrowLeft").
    { revert Hpd. apply face_inv_keep;
        [by rewrite engine_engine_opt|apply play_face_engine_opt]. }
    destruct (String.eqb (key e) "ArrowRight").
    { revert Hpd. apply face_inv_keep;
        [by rewrite engine_engine_opt|apply play_face_engine_opt]. }
    destruct (String.eqb (key e) "Escape"); [|done].
    apply face_inv_none, engine_closeReader.
  - revert Hw. apply face_inv_keep;
      [by rewrite engine_signal|apply play_face_signal].
Qed.

Lemma face_inv_run w evs : face_inv w → face_inv (run w evs).
Proof.
  revert w. induction evs as [|ev evs IH]; intros w Hw; [done|].
  simpl. by apply IH, face_inv_step.
Qed.

(** X10: while an engine is held and the play button is enabled, the
    button says what a click on it does: it shows the pause icon, with
    title and aria-label 'Pause', exactly when the click calls [pause],
    and the play icon, with 'Play', exactly when the click calls [play];
    and [readerView.dataset.state] is [lastState].  (A disabled button
    gets no click.) *)
Theorem play_button_shows_its_action (d : Dom) (sup : bool) (s : store_t)
    (evs : list event) (h : handle) :
  let w := run (init d sup s) evs in
  engine w = Some h →
  btnPlay_disabled (document w) = false →
  engine_calls (appended w (onPlayClick w))
  = [(h, match btnPlay_icon (document w) with
         | IconPause => MPause
         | IconPlay => MPlay
         end)]
  ∧ btnPlay_title (document w)
    = match btnPlay_icon (document w) with
      | IconPause => "Pause"
      | IconPlay => "Play"
      end
  ∧ btnPlay_aria (document w) = btnPlay_title (document w)
  ∧ readerView_state (document w) = lastState w.
Proof.
  intros w He _.
  assert (face_inv w) as Hf
    by (apply face_inv_run, face_inv_none; reflexivity).
  destruct Hf as (Hi & Ht & Ha & Hs); [by rewrite He|].
  split; [|split; [|split; [exact Ha|exact Hs]]].
  - rewrite Hi. unfold onPlayClick. rewrite He.
    destruct (String.eqb (lastState w) "playing"); apply calls_invoke.
  - rewrite Hi, Ht. by destruct (String.eqb (lastState w) "playing").
Qed.

End rendering.

(** ** Events that neither open nor close *)

Section quiet.
Import Lifecycle.
Context {E : Engine}.

Implicit Types (w : World) (h : handle) (m : method) (l : list action).

Lemma quiet_step w ev :
  is_quiet ev = true →
  frame (step w ev) = frame w ∧ engine (step w ev) = engine w.
Proof.
  destruct ev as [book| | | | | | |e|h s]; cbn [step is_quiet]; try done;
    intros Hq.
  - split; [apply frame_onPlayClick|apply engine_onPlayClick].
  - split; [apply frame_engine_opt|apply engine_engine_opt].
  - split; [apply frame_engine_opt|apply engine_engine_opt].
  - split; [apply frame_engine_opt|apply engine_engine_opt].
  - unfold _onKeyDown. destruct (target_in_control e); [done|].
    destruct (String.eqb (key e) " ").
    { cbv zeta. destruct (String.eqb (lastState _) _);
        by rewrite frame_engine_opt, engine_engine_opt. }
    destruct (String.eqb (key e) "ArrowLeft");
      [by rewrite frame_engine_opt, engine_engine_opt|].
    destruct (String.eqb (key e) "ArrowRight");
      [by rewrite frame_engine_opt, engine_engine_opt|].
    by destruct (String.eqb (key e) "Escape").
  - split; [apply frame_signal|apply engine_signal].
Qed.

Lemma quiet_run w evs :
  forallb is_quiet evs = true →
  frame (run w evs) = frame w ∧ engine (run w evs) = engine w.
Proof.
  revert w. induction evs as [|ev evs IH]; intros w Hq; [done|].
  simpl in *. apply andb_true_iff in Hq as [Hev Hevs].
  destruct (IH (step w ev) Hevs) as [-> ->]. by apply quiet_step.
Qed.

(** X11: the engine's notifications and asynchronous inputs, the
    playback buttons and every key but an Escape outside a form control
    leave alone what [openReader] set up: the book title, the cover, the
    visibility of the reader and of the library, the cover URL and the
    object URLs alive, the keyboard listener and its controller, and the
    engine held. *)
Theorem display_survives_playback (w : World) (evs : list event) :
  forallb is_quiet evs = true →
  let w' := run w evs in
  elBookTitle (document w') = elBookTitle (document w)
  ∧ elCover (document w') = elCover (document w)
  ∧ readerView_hidden (document w') = readerView_hidden (document w)
  ∧ main_hidden (document w') = main_hidden (document w)
  ∧ header_hidden (document w') = header_hidden (document w)
  ∧ coverUrl w' = coverUrl w ∧ object_urls w' = object_urls w
  ∧ keydown_listener w' = keydown_listener w ∧ kbAbort w' = kbAbort w
  ∧ engine w' = engine w.
Proof.
  intros Hq w'. destruct (quiet_run w evs Hq) as [Hf He].
  apply frame_parts in Hf as (H1 & H2 & H3 & H4 & _ & Hc).
  unfold chrome in Hc. injection Hc as Hc1 Hc2 Hc3 Hc4 Hc5.
  by repeat split.
Qed.

(** X12: in a browser with speech synthesis, from [openReader] on and
    as long as the reader is neither closed nor another book opened, the
    reader is shown with the title of the book and its cover: the image of
    the object URL in [coverUrl], which is alive, if the book has a cover
    blob, and the placeholder otherwise.  Nothing the engine renders, at
    its construction, in [open] or later, changes that. *)
Theorem open_book_stays_displayed (book : Db.Book) (w : World)
    (evs : list event) :
  speech_supported w = true → forallb is_quiet evs = true →
  let w' := run (openReader book w) evs in
  let title := Db.b_title (Db.row book) in
  elBookTitle (document w') = title
  ∧ reader_shown (document w')
  ∧ engine w' ≠ None
  ∧ match Db.b_coverBlob (Db.row book) with
    | Some _ =>
        ∃ u, elCover (document w') = CoverImg u title
             ∧ coverUrl w' = Some u ∧ u ∈ object_urls w'
    | None =>
        elCover (document w') = CoverPlaceholder title ∧ coverUrl w' = None
    end.
Proof.
  intros Hs Hq w' title.
  destruct (quiet_run (openReader book w) evs Hq) as [Hf He].
  apply frame_parts in Hf as (H1 & H2 & _ & _ & _ & Hc). fold w' in H1, H2, Hc.
  destruct (openReader_log book w Hs) as (h & ps & Hh & _).
  apply (openReader_supported_frame book) in Hs.
  apply opened_parts in Hs as (_ & _ & _ & _ & cv & Hch & Hcv).
  rewrite Hch in Hc. unfold chrome in Hc.
  injection Hc as Hc1 Hc2 Hc3 Hc4 Hc5.
  split; [exact Hc4|]. split; [by repeat split|].
  split; [fold w' in He; by rewrite He, Hh|].
  destruct (Db.b_coverBlob (Db.row book)); destruct Hcv as (-> & Hu & Ho).
  - exists (next_id w). split; [exact Hc5|]. split; [by rewrite H1|].
    rewrite H2, Ho. apply elem_of_union_l. by apply elem_of_singleton.
  - split; [exact Hc5|]. by rewrite H1.
Qed.

(** ** A browser without speech synthesis *)

Lemma destroyEngine_none w :
  engine w = None → _destroyEngine w = set_lastState "idle" (set_engine None w).
Proof. intros He. unfold _destroyEngine. by rewrite engine_opt_none. Qed.

Lemma alerts_snoc l a :
  alerts (l ++ [a])
  = alerts l ++ match a with AAlert msg => [msg] | _ => [] end.
Proof. unfold alerts. rewrite omap_app. by destruct a. Qed.

Lemma unsupported_step w ev :
  unsupported_inv w →
  unsupported_inv (step w ev)
  ∧ store (step w ev) = store w
  ∧ alerts (log (step w ev))
    = alerts (log w)
      ++ (if is_open ev
          then ["Text-to-speech is not supported in this browser."]
          else []).
Proof.
  intros (Hs & He & Hh & Hl).
  assert (unsupported_inv (add_log APreventDefault w)
          ∧ store (add_log APreventDefault w) = store w
          ∧ alerts (log (add_log APreventDefault w)) = alerts (log w) ++ [])
    as Hpd.
  { cbn [add_log set_log log store]. rewrite alerts_snoc.
    split; [|done]. split; [done|]. split; [done|]. split; [done|].
    cbn [log]. apply Forall_app. by split; [|repeat constructor]. }
  assert (unsupported_inv (closeReader w)
          ∧ store (closeReader w) = store w
          ∧ alerts (log (closeReader w)) = alerts (log w) ++ []) as Hclose.
  { destruct (closeReader_idle w He) as (H1 & H2 & H3).
    destruct (closed_parts w _ (closeReader_frame w)) as (_ & _ & _ & _ & H4 & _).
    rewrite H1, H2, app_nil_r. split; [|done].
    unfold unsupported_inv. by rewrite H1, H3, H4, engine_closeReader. }
  destruct ev as [book| | | | | | |e|h s]; cbn [step is_open].
  - rewrite openReader_unsupported by done. rewrite destroyEngine_none by done.
    set (W := _releaseCover (set_lastState "idle" (set_engine None w))).
    assert (log W = log w) as H1 by (unfold W; by rewrite log_releaseCover).
    assert (store W = store w) as H2
      by (unfold W; by rewrite store_releaseCover).
    assert (speech_supported W = false) as H3
      by (unfold W; by rewrite speech_releaseCover).
    assert (engine W = None) as H4 by (unfold W; by rewrite engine_releaseCover).
    assert (heap W = ∅) as H5.
    { unfold W, _releaseCover. cbv zeta.
      by destruct (coverUrl (set_lastState "idle" (set_engine None w))). }
    clearbody W.
    cbn [add_log set_log log store]. rewrite alerts_snoc, H1, H2.
    split; [|done]. unfold unsupported_inv.
    cbn [speech_supported engine heap log add_log set_log]. rewrite H1.
    split; [done|]. split; [done|]. split; [done|].
    apply Forall_app. by split; [|repeat constructor].
  - exact Hclose.
  - exact Hclose.
  - unfold onPlayClick. rewrite He. by rewrite app_nil_r.
  - rewrite engine_opt_none by done. by rewrite app_nil_r.
  - rewrite engine_opt_none by done. by rewrite app_nil_r.
  - rewrite engine_opt_none by done. by rewrite app_nil_r.
  - unfold _onKeyDown. destruct (target_in_control e);
      [by rewrite app_nil_r|].
    destruct (String.eqb (key e) " ").
    { cbv zeta. destruct (String.eqb _ _);
        by rewrite engine_opt_none by apply Hpd. }
    destruct (String.eqb (key e) "ArrowLeft");
      [by rewrite engine_opt_none by apply Hpd|].
    destruct (String.eqb (key e) "ArrowRight");
      [by rewrite engine_opt_none by apply Hpd|].
    destruct (String.eqb (key e) "Escape"); [exact Hclose|].
    by rewrite app_nil_r.
  - unfold signal. rewrite Hh, lookup_empty. by rewrite app_nil_r.
Qed.

Lemma unsupported_run w evs :
  unsupported_inv w →
  unsupported_inv (run w evs)
  ∧ store (run w evs) = store w
  ∧ alerts (log (run w evs))
    = alerts (log w)
      ++ replicate (opens evs)
           "Text-to-speech is not supported in this browser.".
Proof.
  revert w. induction evs as [|ev evs IH]; intros w Hw.
  - simpl. by rewrite app_nil_r.
  - destruct (unsupported_step w ev Hw) as (H1 & H2 & H3).
    destruct (IH _ H1) as (H4 & H5 & H6). simpl.
    split; [exact H4|]. split; [by rewrite H5|].
    rewrite H6, H3, <-app_assoc. unfold opens. simpl.
    by destruct (is_open ev).
Qed.

(** X13: in a browser without speech synthesis nothing ever plays:
    whatever is clicked, pressed or called, no engine is constructed or
    held, no method is called, nothing is rendered and the record store
    is not touched; each [openReader] gives one alert and nothing else;
    and a page that shows the library goes on showing it. *)
Theorem without_speech_nothing_plays (d : Dom) (s : store_t)
    (evs : list event) :
  let w := run (init d false s) evs in
  engine w = None ∧ heap w = ∅ ∧ store w = s
  ∧ Forall notice (log w)
  ∧ alerts (log w)
    = replicate (opens evs) "Text-to-speech is not supported in this browser."
  ∧ (library_shown d → library_shown (document w)).
Proof.
  intros w.
  destruct (unsupported_run (init d false s) evs)
    as ((_ & He & Hh & Hl) & Hs & Ha); [by repeat split|].
  repeat (split; [assumption|]).
  destruct (vis_inv_run (library_shown d) (init d false s) evs)
    as (_ & H2 & _).
  { split; [done|]. split; [by intros Hd _|done]. }
  intros Hd. by apply H2.
Qed.

End quiet.

(** ** Opening a book while another is open *)

Section reopen.
Import Lifecycle.
Context {E : Engine}.

Implicit Types (w : World) (h : handle) (m : method) (l : list action).

Lemma next_id_invoke h m w : next_id (invoke h m w) = next_id w.
Proof.
  unfold invoke. cbn [heap store add_log set_log].
  destruct (heap w !! h) as [e|]; [|done].
  destruct (e_call m e (store w)) as [[e' s'] ps]. by rewrite next_id_deliver.
Qed.

Lemma next_id_engine_opt m w : next_id (engine_opt m w) = next_id w.
Proof. unfold engine_opt. destruct (engine w); [apply next_id_invoke|done]. Qed.

Lemma next_id_closeReader w : next_id (closeReader w) = next_id w.
Proof.
  unfold closeReader. cbv zeta. cbn [next_id set_document set_kbAbort].
  transitivity (next_id (_releaseCover (_destroyEngine (engine_opt MStop w)))).
  - destruct (kbAbort _); [|done]. unfold abort. by case_bool_decide.
  - by rewrite next_id_releaseCover, next_id_destroyEngine, next_id_engine_opt.
Qed.

Lemma next_id_start_engine book w :
  next_id (start_engine book w) = S (next_id w).
Proof.
  unfold start_engine. cbv zeta. cbn [next_id set_awaiting].
  rewrite next_id_invoke. cbn [next_id set_engine].
  by rewrite next_id_deliver.
Qed.

Lemma next_id_listen_keys w : next_id (listen_keys w) = S (next_id w).
Proof.
  unfold listen_keys, add_keydown_listener.
  cbn [keydown_listener set_kbAbort set_next_id].
  by destruct (keydown_listener w).
Qed.

Lemma next_id_openReader book w : next_id w ≤ next_id (openReader book w).
Proof.
  destruct (speech_supported w) eqn:Hs.
  - rewrite openReader_supported by done.
    rewrite next_id_start_engine, next_id_listen_keys.
    change (next_id (_render ?p ?W)) with (next_id W).
    rewrite next_id_show_book, next_id_releaseCover, next_id_destroyEngine.
    destruct (Db.b_coverBlob (Db.row book)); lia.
  - rewrite openReader_unsupported by done.
    cbn [next_id add_log set_log].
    by rewrite next_id_releaseCover, next_id_destroyEngine.
Qed.

Lemma next_id_signal h s w : next_id (signal h s w) = next_id w.
Proof.
  unfold signal. destruct (heap w !! h) as [e|]; [|done].
  destruct (e_signal s e (store w)) as [[[e' s'] ps] r].
  transitivity (next_id (deliver ps
      (set_store s' (set_heap (<[h:=e']> (heap w)) w))));
    [|by rewrite next_id_deliver].
  destruct r as [r|]; [|done].
  unfold openReader_resume. case_bool_decide; [|done]. by destruct r.
Qed.

Lemma next_id_step w ev : next_id w ≤ next_id (step w ev).
Proof.
  destruct ev as [book| | | | | | |e|h s]; cbn [step].
  - apply next_id_openReader.
  - by rewrite next_id_closeReader.
  - by rewrite next_id_closeReader.
  - unfold onPlayClick. destruct (engine w); [|done].
    destruct (String.eqb _ _); by rewrite next_id_invoke.
  - by rewrite next_id_engine_opt.
  - by rewrite next_id_engine_opt.
  - by rewrite next_id_engine_opt.
  - unfold _onKeyDown. destruct (target_in_control e); [done|].
    destruct (String.eqb (key e) " ").
    { cbv zeta. destruct (String.eqb (lastState _) _);
        by rewrite next_id_engine_opt. }
    destruct (String.eqb (key e) "ArrowLeft"); [by rewrite next_id_engine_opt|].
    destruct (String.eqb (key e) "ArrowRight"); [by rewrite next_id_engine_opt|].
    destruct (String.eqb (key e) "Escape"); [|done].
    by rewrite next_id_closeReader.
  - by rewrite next_id_signal.
Qed.

(** The keyboard block of [openReader]: a new controller, and the
    listener left as it is when one is registered. *)
Lemma opened_listener book n w w' :
  frame w' = opened_frame book n (frame w) →
  (kbAbort w' = Some n ∨ kbAbort w' = Some (S n))
  ∧ keydown_listener w'
    = match keydown_listener w with Some x => Some x | None => kbAbort w' end.
Proof.
  unfold frame, chrome, opened_frame.
  destruct (Db.b_coverBlob (Db.row book)), (keydown_listener w);
    intros H; injection H; intros;
    (split; [first [by left|by right]|congruence]).
Qed.

Lemma supported_openReader_next book w :
  speech_supported w = true →
  S (S (next_id w)) ≤ next_id (openReader book w)
  ∧ (Db.b_coverBlob (Db.row book) ≠ None →
     S (S (S (next_id w))) ≤ next_id (openReader book w)).
Proof.
  intros Hs. rewrite openReader_supported by done.
  rewrite next_id_start_engine, next_id_listen_keys.
  change (next_id (_render ?p ?W)) with (next_id W).
  rewrite next_id_show_book, next_id_releaseCover, next_id_destroyEngine.
  destruct (Db.b_coverBlob (Db.row book)); split; (lia || done).
Qed.

Lemma listener_fresh_step w ev : listener_fresh w → listener_fresh (step w ev).
Proof.
  intros Hw c Hc. pose proof (next_id_step w ev) as Hle.
  destruct (step_shape w ev)
    as [[Hf _]|[[Hf _]|[(book & -> & Hs & Hf & _)|(book & _ & _ & Hf & _)]]].
  - apply frame_parts in Hf as (_ & _ & _ & Hl & _).
    rewrite Hl in Hc. specialize (Hw c Hc). lia.
  - apply closed_parts in Hf as (_ & _ & _ & Hl & _). rewrite Hl in Hc.
    assert (keydown_listener w = Some c) as Hc'.
    { destruct (kbAbort w) as [k|]; [|done]. by case_bool_decide. }
    specialize (Hw c Hc'). lia.
  - cbn [step] in *.
    destruct (supported_openReader_next book w Hs) as [Hn Hn'].
    pose proof Hf as Hf'. apply opened_listener in Hf as [Hk Hl].
    rewrite Hl in Hc. destruct (keydown_listener w) as [x|] eqn:Hx.
    + injection Hc as <-. specialize (Hw x Hx). lia.
    + destruct Hk as [Hk|Hk]; rewrite Hk in Hc; injection Hc as <-; lia.
  - apply released_parts in Hf as (_ & _ & _ & Hl & _).
    rewrite Hl in Hc. specialize (Hw c Hc). lia.
Qed.

Lemma listener_fresh_run w evs : listener_fresh w → listener_fresh (run w evs).
Proof.
  revert w. induction evs as [|ev evs IH]; intros w Hw; [done|].
  simpl. by apply IH, listener_fresh_step.
Qed.

Lemma speech_step w ev : speech_supported (step w ev) = speech_supported w.
Proof.
  destruct (step_shape w ev)
    as [[Hf _]|[[Hf _]|[(book & _ & _ & Hf & _)|(book & _ & _ & Hf & _)]]].
  - by apply frame_parts in Hf as (_ & _ & _ & _ & -> & _).
  - by apply closed_parts in Hf as (_ & _ & _ & _ & -> & _).
  - by apply opened_parts in Hf as (-> & _).
  - by apply released_parts in Hf as (_ & _ & _ & _ & -> & _).
Qed.

Lemma speech_run w evs : speech_supported (run w evs) = speech_supported w.
Proof.
  revert w. induction evs as [|ev evs IH]; intros w; [done|].
  simpl. by rewrite IH, speech_step.
Qed.

(** X14: [openReader] does not abort the controller in [kbAbort] before
    it replaces it, and [addEventListener] does not add [_onKeyDown] a
    second time.  So when a book is opened while the keyboard listener is
    registered, that is with a book already open, the [closeReader] that
    follows aborts the new controller and leaves the listener
    registered, with no controller left in [kbAbort] to remove it. *)
Theorem reopen_strands_key_listener (d : Dom) (s : store_t)
    (evs : list event) (book : Db.Book) (c : nat) :
  let w := run (init d true s) evs in
  keydown_listener w = Some c →
  let w' := closeReader (openReader book w) in
  keydown_listener w' = Some c ∧ kbAbort w' = None.
Proof.
  intros w Hc w'.
  assert (c < next_id w) as Hlt.
  { apply (listener_fresh_run (init d true s) evs); [done|exact Hc]. }
  assert (speech_supported w = true) as Hs by apply speech_run.
  pose proof (openReader_supported_frame book w Hs) as Hf.
  apply opened_listener in Hf as [Hk Hl]. rewrite Hc in Hl.
  destruct (closed_parts _ _ (closeReader_frame (openReader book w)))
    as (_ & _ & Hkb & Hli & _).
  split; [|exact Hkb]. unfold w'. rewrite Hli, Hl.
  destruct Hk as [-> | ->]; case_bool_decide as Heq; try done;
    injection Heq as ->; lia.
Qed.

End reopen.

(** ** The cards of the library *)

Section cards.
Import BookCard Cards.

Implicit Types (w : World) (book : Db.Book) (o : Outcomes).

Lemma urls_confirmRemove book confirmed o w :
  (_objectUrls (confirmRemove book confirmed o w) = _objectUrls w
   ∧ object_urls (confirmRemove book confirmed o w) = object_urls w)
  ∨ (∃ u, _objectUrls w !! Db.id book = Some u
          ∧ _objectUrls (confirmRemove book confirmed o w)
            = delete (Db.id book) (_objectUrls w)
          ∧ object_urls (confirmRemove book confirmed o w)
            = object_urls w ∖ {[u]}).
Proof.
  unfold confirmRemove. destruct confirmed; [|by left]. cbn [negb].
  destruct (all_ok o); [|by left]. cbv zeta. unfold revoke_card_url.
  cbn [_objectUrls set_store].
  destruct (_objectUrls w !! Db.id book) as [u|] eqn:Hu; [|by left].
  right. by exists u.
Qed.

Lemma urls_create url book w :
  (Db.b_coverBlob (Db.row book) = None ∧ apply w (Create url book) = w)
  ∨ (Db.b_coverBlob (Db.row book) ≠ None
     ∧ _objectUrls (apply w (Create url book))
       = <[Db.id book := url]> (_objectUrls w)
     ∧ object_urls (apply w (Create url book)) = {[url]} ∪ object_urls w).
Proof.
  unfold apply, createBookCard, buildCoverHtml.
  destruct (Db.b_coverBlob (Db.row book)); [by right|by left].
Qed.

Lemma urls_inv_apply w op :
  urls_fresh w [op] → urls_inv w → urls_inv (apply w op).
Proof.
  intros [Hfresh _] [H1 H2]. destruct op as [url book|book confirmed o].
  - destruct (urls_create url book w) as [[_ ->]|(Hc & Hm & Hl)]; [done|].
    specialize (Hfresh Hc). unfold urls_inv. rewrite Hm, Hl. split.
    + intros id u Hu. apply elem_of_union.
      destruct (decide (id = Db.id book)) as [->|Hne].
      * rewrite lookup_insert_eq in Hu. injection Hu as ->. left.
        by apply elem_of_singleton.
      * rewrite lookup_insert_ne in Hu by done. right. by eapply H1.
    + intros id1 id2 u Hu1 Hu2.
      destruct (decide (id1 = Db.id book)) as [->|Hne1],
               (decide (id2 = Db.id book)) as [->|Hne2]; [done| | |].
      * rewrite lookup_insert_eq in Hu1. injection Hu1 as ->.
        rewrite lookup_insert_ne in Hu2 by done.
        destruct Hfresh. by eapply H1.
      * rewrite lookup_insert_eq in Hu2. injection Hu2 as ->.
        rewrite lookup_insert_ne in Hu1 by done.
        destruct Hfresh. by eapply H1.
      * rewrite lookup_insert_ne in Hu1, Hu2 by done. by eapply H2.
  - cbn [apply].
    destruct (urls_confirmRemove book confirmed o w)
      as [[Hm Hl]|(u & Hu & Hm & Hl)]; unfold urls_inv; rewrite Hm, Hl;
      [done|]. split.
    + intros id u' Hu'. apply lookup_delete_Some in Hu' as [Hne Hu'].
      apply elem_of_difference. split; [by eapply H1|].
      intros Heq. apply elem_of_singleton in Heq as ->.
      apply Hne. symmetry. by eapply H2.
    + intros id1 id2 u' Hu1 Hu2.
      apply lookup_delete_Some in Hu1 as [_ Hu1].
      apply lookup_delete_Some in Hu2 as [_ Hu2]. by eapply H2.
Qed.

Lemma urls_inv_run w ops : urls_fresh w ops → urls_inv w → urls_inv (run w ops).
Proof.
  revert w. induction ops as [|op ops IH]; intros w Hf Hw; [done|].
  destruct Hf as [Hop Hf]. simpl. apply IH; [done|].
  by apply urls_inv_apply.
Qed.

(** X15: the object URL of a card's cover image is never revoked while
    the card is registered: whatever cards are created and whatever
    removals are confirmed, cancelled or fail, every URL in [_objectUrls]
    is alive, and no two books share one. *)
Theorem card_urls_stay_live (w0 : World) (ops : list op) (id : Z) (u : nat) :
  _objectUrls w0 = ∅ → urls_fresh w0 ops →
  let w := run w0 ops in
  _objectUrls w !! id = Some u →
  u ∈ object_urls w
  ∧ ∀ id', _objectUrls w !! id' = Some u → id' = id.
Proof.
  intros H0 Hf w Hu.
  destruct (urls_inv_run w0 ops Hf) as [H1 H2].
  { split; intros *; by rewrite H0, lookup_empty. }
  split; [by eapply H1|]. intros id' Hu'. by eapply H2.
Qed.

Lemma stranded_apply u w op :
  urls_fresh w [op] → stranded u w → stranded u (apply w op).
Proof.
  intros [Hfresh _] [H1 H2]. destruct op as [url book|book confirmed o].
  - destruct (urls_create url book w) as [[_ ->]|(Hc & Hm & Hl)]; [done|].
    specialize (Hfresh Hc). unfold stranded. rewrite Hm, Hl.
    split; [apply elem_of_union; by right|]. intros id Hid.
    destruct (decide (id = Db.id book)) as [->|Hne].
    + rewrite lookup_insert_eq in Hid. by injection Hid as ->.
    + rewrite lookup_insert_ne in Hid by done. by eapply H2.
  - cbn [apply].
    destruct (urls_confirmRemove book confirmed o w)
      as [[Hm Hl]|(u' & Hu' & Hm & Hl)]; unfold stranded; rewrite Hm, Hl;
      [done|]. split.
    + apply elem_of_difference. split; [done|]. intros Heq.
      apply elem_of_singleton in Heq as ->. by eapply H2.
    + intros id Hid. apply lookup_delete_Some in Hid as [_ Hid].
      by eapply H2.
Qed.

Lemma stranded_run u w ops :
  urls_fresh w ops → stranded u w → stranded u (run w ops).
Proof.
  revert w. induction ops as [|op ops IH]; intros w Hf Hw; [done|].
  destruct Hf as [Hop Hf]. simpl. apply IH; [done|].
  by apply stranded_apply.
Qed.

(** X16: [buildCoverHtml] overwrites the entry of the book in
    [_objectUrls] without revoking the URL it held.  So when a card is
    created for a book with a cover that already has a registered URL,
    that URL is never revoked, whatever is created or removed
    afterwards: [confirmRemove] revokes the new one only. *)
Theorem recreated_card_strands_url (w0 : World) (book : Db.Book)
    (u url : nat) (ops : list op) :
  (∀ id u', _objectUrls w0 !! id = Some u' → u' ∈ object_urls w0) →
  (∀ id, _objectUrls w0 !! id = Some u → id = Db.id book) →
  _objectUrls w0 !! Db.id book = Some u →
  Db.b_coverBlob (Db.row book) ≠ None →
  urls_fresh w0 (Create url book :: ops) →
  let w := run w0 (Create url book :: ops) in
  u ∈ object_urls w ∧ ∀ id, _objectUrls w !! id ≠ Some u.
Proof.
  intros Hlive Honly Hu Hc [Hfresh Hf] w.
  apply (stranded_run u (apply w0 (Create url book)) ops Hf).
  specialize (Hfresh Hc).
  destruct (urls_create url book w0) as [[Hn _]|(_ & Hm & Hl)]; [done|].
  unfold stranded. rewrite Hm, Hl. split.
  - apply elem_of_union. right. by eapply Hlive.
  - intros id Hid. destruct (decide (id = Db.id book)) as [->|Hne].
    + rewrite lookup_insert_eq in Hid. injection Hid as ->.
      apply Hfresh. by eapply Hlive.
    + rewrite lookup_insert_ne in Hid by done. by apply Hne, Honly.
Qed.

Lemma filter_remove_card id (l : list Z) :
  filter (λ x, x ≠ id) (remove_card id l) = filter (λ x, x ≠ id) l.
Proof.
  induction l as [|x l IH]; [done|]. simpl. case_bool_decide as Hx.
  - subst. by rewrite filter_cons_False by (by intros ?).
  - by rewrite !filter_cons_True, IH by done.
Qed.

(** X17: a removal touches the card and the object URL of its book only,
    whether it is cancelled, fails or succeeds: the cards of the other
    books stay, in their order; the entries of the other books in
    [_objectUrls] stay; and no URL is revoked but the one registered for
    the book. *)
Theorem removal_spares_other_cards (book : Db.Book) (confirmed : bool)
    (o : Outcomes) (w : World) :
  let id := Db.id book in
  let w' := confirmRemove book confirmed o w in
  filter (λ x, x ≠ id) (cards w') = filter (λ x, x ≠ id) (cards w)
  ∧ (∀ id', id' ≠ id → _objectUrls w' !! id' = _objectUrls w !! id')
  ∧ (∀ u, u ∈ object_urls w → _objectUrls w !! id ≠ Some u →
          u ∈ object_urls w')
  ∧ object_urls w' ⊆ object_urls w.
Proof.
  intros id w'. split.
  - unfold w', confirmRemove. destruct confirmed; [|done]. cbn [negb].
    destruct (all_ok o); [|done]. cbv zeta. unfold revoke_card_url.
    cbn [_objectUrls set_store].
    destruct (_objectUrls w !! Db.id book); apply filter_remove_card.
  - destruct (urls_confirmRemove book confirmed o w)
      as [[Hm Hl]|(u & Hu & Hm & Hl)]; unfold w'; rewrite Hm, Hl.
    + done.
    + split; [intros id' Hne; by apply lookup_delete_ne|]. split.
      * intros u' Hin Hne. apply elem_of_difference. split; [done|].
        intros Heq. apply elem_of_singleton in Heq as ->. by apply Hne.
      * apply subseteq_difference_l. done.
Qed.

(** X18: after a removal that succeeded, the grid is hidden and the
    empty state shown exactly when no card is left; one of the two is
    hidden, never both and never none. *)
Theorem empty_state_follows_cards (book : Db.Book) (o : Outcomes)
    (w : World) :
  all_ok o = true →
  let w' := confirmRemove book true o w in
  (grid_hidden w' = true ↔ cards w' = [])
  ∧ empty_hidden w' = negb (grid_hidden w').
Proof.
  intros Hok w'. unfold w', confirmRemove. cbn [negb]. rewrite Hok. cbv zeta.
  cbn [grid_hidden empty_hidden cards showToast updateEmptyState].
  split; [|by rewrite negb_involutive].
  destruct (cards _) as [|x l]; cbn [length].
  - by rewrite bool_decide_eq_false_2 by lia.
  - by rewrite bool_decide_eq_true_2 by lia.
Qed.

(** X19: the three deletions of [confirmRemove] are not undone when one
    of them rejects: if the deletion of the book row fulfils and
    [deleteBook] rejects, the row is gone from the [books] table while
    the card stays in the grid with its object URL, and the user is
    shown the error toast. *)
Theorem failed_removal_keeps_card_of_deleted_row (book : Db.Book)
    (o : Outcomes) (w : World) :
  books_delete_ok o = true → deleteBook_ok o = false →
  let w' := confirmRemove book true o w in
  Db.rows (Db.books (Store.db (store w'))) !! Db.id book = None
  ∧ cards w' = cards w
  ∧ _objectUrls w' = _objectUrls w
  ∧ object_urls w' = object_urls w
  ∧ toasts w' = toasts w ++ [("Failed to remove book", "error")]
  ∧ console w' = console w ++ ["Failed to remove book"].
Proof.
  intros Hb Hd w'. unfold w'. rewrite store_confirmRemove.
  unfold confirmRemove. cbn [negb].
  replace (all_ok o) with false by (symmetry; apply all_ok_false; auto).
  split; [|done]. unfold deletions. rewrite Hb, Hd.
  destruct (chapters_delete_ok o); simpl; apply lookup_delete_eq.
Qed.

End cards.

(** * Instances of the properties above *)

Local Abbreviation cover_history :=
  (@run TTS.engine (init blank true Sample.store)
     [EvOpenReader Shelf.illustrated]).

Lemma shown_cover_is_live_witness :
  (∀ u' t', elCover blank ≠ CoverImg u' t')
  ∧ elCover (document cover_history) = CoverImg 0 "Alice"
  ∧ coverUrl cover_history = Some 0
  ∧ 0 ∈ object_urls cover_history.
Proof.
  assert (∀ u' t', elCover blank ≠ CoverImg u' t') as H1 by done.
  assert (elCover (document cover_history) = CoverImg 0 "Alice") as H2
    by (vm_compute; reflexivity).
  split; [exact H1|]. split; [exact H2|].
  exact (shown_cover_is_live (E:=TTS.engine) blank true Sample.store
           [EvOpenReader Shelf.illustrated] 0 "Alice" H1 H2).
Defined.

Local Abbreviation loaded_history :=
  (@run TTS.engine
     (openReader Sample.book (@init TTS.engine blank true Sample.store))
     [@EvSignal TTS.engine 1 (TTS.Loaded 1); EvPlay]).

Lemma close_removes_key_listener_witness :
  keydown_listener loaded_history = Some 0
  ∧ keydown_listener (closeReader loaded_history) = None
  ∧ kbAbort (closeReader loaded_history) = None.
Proof.
  split; [vm_compute; reflexivity|].
  exact (close_removes_key_listener (E:=TTS.engine) Sample.book
           (init blank true Sample.store)
           [@EvSignal TTS.engine 1 (TTS.Loaded 1); EvPlay]
           eq_refl eq_refl).
Defined.

Lemma calls_reach_live_engine_witness :
  log playing_history !! 5 = Some (ACall 1 MPlay)
  ∧ 1 ∈ live_of (take 5 (log playing_history)).
Proof.
  assert (log playing_history !! 5 = Some (ACall 1 MPlay)) as H
    by (vm_compute; reflexivity).
  split; [exact H|].
  exact (calls_reach_live_engine (E:=TTS.engine) blank true Sample.store
           [EvOpenReader Sample.book; @EvSignal TTS.engine 1 (TTS.Loaded 1);
            EvPlay] 5 1 MPlay H).
Defined.

Local Abbreviation fresh_page := (@init TTS.engine blank true Sample.store).

Local Abbreviation space_key := {| key := " "; target_in_control := false |}.

Lemma idle_controls_inert_witness :
  let w := fresh_page in
  let w' := step w (EvKeyDown space_key) in
  log w' = [APreventDefault]
  ∧ engine w' = None
  ∧ engine_calls (log w') = engine_calls (log w)
  ∧ Lifecycle.renders (log w') = Lifecycle.renders (log w)
  ∧ store w' = store w ∧ heap w' = heap w.
Proof.
  intros w w'. split; [reflexivity|].
  exact (idle_controls_inert (E:=TTS.engine) w (EvKeyDown space_key)
           eq_refl eq_refl).
Defined.

Lemma shortcuts_mirror_buttons_witness :
  _onKeyDown space_key playing_history
  = step (add_log APreventDefault playing_history) EvPlay.
Proof.
  exact (proj1 (shortcuts_mirror_buttons (E:=TTS.engine) space_key
                  playing_history eq_refl) eq_refl).
Defined.

Lemma play_button_shows_its_action_witness :
  (btnPlay_icon (document playing_history) = IconPause
   ∧ btnPlay_disabled (document playing_history) = false)
  ∧ engine_calls (appended playing_history (onPlayClick playing_history))
    = [(1, match btnPlay_icon (document playing_history) with
           | IconPause => MPause
           | IconPlay => MPlay
           end)]
  ∧ btnPlay_title (document playing_history)
    = match btnPlay_icon (document playing_history) with
      | IconPause => "Pause"
      | IconPlay => "Play"
      end
  ∧ btnPlay_aria (document playing_history)
    = btnPlay_title (document playing_history)
  ∧ readerView_state (document playing_history) = lastState playing_history.
Proof.
  assert (engine playing_history = Some 1) as He by (vm_compute; reflexivity).
  assert (btnPlay_disabled (document playing_history) = false) as Hd
    by (vm_compute; reflexivity).
  split; [split; [vm_compute; reflexivity|exact Hd]|].
  exact (play_button_shows_its_action (E:=TTS.engine) blank true Sample.store
           [EvOpenReader Sample.book; @EvSignal TTS.engine 1 (TTS.Loaded 1);
            EvPlay] 1 He Hd).
Defined.

Local Abbreviation illustrated_open :=
  (@openReader TTS.engine Shelf.illustrated fresh_page).

Local Abbreviation playback :=
  [@EvSignal TTS.engine 2 (TTS.Loaded 1); @EvPlay TTS.engine;
   @EvKeyDown TTS.engine space_key].

Lemma display_survives_playback_witness :
  let w := illustrated_open in
  let w' := run w playback in
  (elCover (document w) = CoverImg 0 "Alice"
   ∧ lastState w = "loading" ∧ lastState w' = "stopped")
  ∧ elBookTitle (document w') = elBookTitle (document w)
  ∧ elCover (document w') = elCover (document w)
  ∧ readerView_hidden (document w') = readerView_hidden (document w)
  ∧ main_hidden (document w') = main_hidden (document w)
  ∧ header_hidden (document w') = header_hidden (document w)
  ∧ coverUrl w' = coverUrl w ∧ object_urls w' = object_urls w
  ∧ keydown_listener w' = keydown_listener w ∧ kbAbort w' = kbAbort w
  ∧ engine w' = engine w.
Proof.
  intros w w'. split; [by vm_compute|].
  exact (display_survives_playback (E:=TTS.engine) w playback eq_refl).
Defined.

Lemma open_book_stays_displayed_witness :
  let w' := run (openReader Shelf.illustrated fresh_page) playback in
  let title := Db.b_title (Db.row Shelf.illustrated) in
  elBookTitle (document w') = title
  ∧ Lifecycle.reader_shown (document w')
  ∧ engine w' ≠ None
  ∧ match Db.b_coverBlob (Db.row Shelf.illustrated) with
    | Some _ =>
        ∃ u, elCover (document w') = CoverImg u title
             ∧ coverUrl w' = Some u ∧ u ∈ object_urls w'
    | None =>
        elCover (document w') = CoverPlaceholder title ∧ coverUrl w' = None
    end.
Proof.
  exact (open_book_stays_displayed (E:=TTS.engine) Shelf.illustrated
           fresh_page playback eq_refl eq_refl).
Defined.

Local Abbreviation first_open :=
  (@run TTS.engine (init blank true Sample.store) [EvOpenReader Sample.book]).

Lemma reopen_strands_key_listener_witness :
  keydown_listener first_open = Some 0
  ∧ keydown_listener (closeReader (openReader Shelf.illustrated first_open))
    = Some 0
  ∧ kbAbort (closeReader (openReader Shelf.illustrated first_open)) = None.
Proof.
  assert (keydown_listener first_open = Some 0) as H
    by (vm_compute; reflexivity).
  split; [exact H|].
  exact (reopen_strands_key_listener (E:=TTS.engine) blank Sample.store
           [EvOpenReader Sample.book] Shelf.illustrated 0 H).
Defined.

Local Abbreviation all_fulfil :=
  {| BookCard.books_delete_ok := true; BookCard.chapters_delete_ok := true;
     BookCard.deleteBook_ok := true |}.

Local Abbreviation empty_library :=
  {| BookCard.store := Store.empty; BookCard.cards := [];
     BookCard._objectUrls := ∅; BookCard.object_urls := ∅;
     BookCard.grid_hidden := true; BookCard.empty_hidden := false;
     BookCard.toasts := []; BookCard.console := [] |}.

Local Abbreviation one_card :=
  [Cards.Create 0 Shelf.illustrated;
   Cards.ClickRemove Sample.book true all_fulfil].

Lemma card_urls_stay_live_witness :
  BookCard._objectUrls (Cards.run empty_library one_card) !! 8%Z = Some 0
  ∧ 0 ∈ BookCard.object_urls (Cards.run empty_library one_card)
  ∧ ∀ id',
      BookCard._objectUrls (Cards.run empty_library one_card) !! id' = Some 0 →
      id' = 8%Z.
Proof.
  assert (BookCard._objectUrls (Cards.run empty_library one_card) !! 8%Z
          = Some 0) as H by (vm_compute; reflexivity).
  split; [exact H|].
  refine (card_urls_stay_live empty_library one_card 8 0 eq_refl _ H).
  simpl. split; [|done]. intros _. apply not_elem_of_empty.
Defined.

Local Abbreviation shelved :=
  {| BookCard.store := Store.empty; BookCard.cards := [8%Z];
     BookCard._objectUrls := {[8%Z := 0]}; BookCard.object_urls := {[0]};
     BookCard.grid_hidden := false; BookCard.empty_hidden := true;
     BookCard.toasts := []; BookCard.console := [] |}.

Local Abbreviation recreate_then_remove :=
  [Cards.Create 1 Shelf.illustrated;
   Cards.ClickRemove Shelf.illustrated true all_fulfil].

Lemma recreated_card_strands_url_witness :
  BookCard._objectUrls (Cards.run shelved recreate_then_remove) = ∅
  ∧ 0 ∈ BookCard.object_urls (Cards.run shelved recreate_then_remove)
  ∧ ∀ id,
      BookCard._objectUrls (Cards.run shelved recreate_then_remove) !! id
      ≠ Some 0.
Proof.
  split; [by vm_compute|].
  refine (recreated_card_strands_url shelved Shelf.illustrated 0 1
            [Cards.ClickRemove Shelf.illustrated true all_fulfil]
            _ _ _ _ _).
  - intros id u' Hu. cbn [BookCard._objectUrls BookCard.object_urls] in *.
    apply lookup_singleton_Some in Hu as [_ <-]. by apply elem_of_singleton.
  - intros id Hu. cbn [BookCard._objectUrls] in Hu.
    by apply lookup_singleton_Some in Hu as [<- _].
  - by vm_compute.
  - done.
  - simpl. split; [|done]. intros _ Hin. by apply elem_of_singleton in Hin.
Defined.

Local Abbreviation last_card :=
  {| BookCard.store := Sample.store; BookCard.cards := [7%Z];
     BookCard._objectUrls := ∅; BookCard.object_urls := ∅;
     BookCard.grid_hidden := false; BookCard.empty_hidden := true;
     BookCard.toasts := []; BookCard.console := [] |}.

Lemma empty_state_follows_cards_witness :
  let w' := BookCard.confirmRemove Sample.book true all_fulfil last_card in
  BookCard.cards w' = []
  ∧ (BookCard.grid_hidden w' = true ↔ BookCard.cards w' = [])
  ∧ BookCard.empty_hidden w' = negb (BookCard.grid_hidden w').
Proof.
  intros w'. split; [reflexivity|].
  exact (empty_state_follows_cards Sample.book all_fulfil last_card eq_refl).
Defined.

Local Abbreviation file_stays :=
  {| BookCard.books_delete_ok := true; BookCard.chapters_delete_ok := true;
     BookCard.deleteBook_ok := false |}.

Local Abbreviation stored_card :=
  {| BookCard.store :=
       Store.set_books
         {| Db.rows := {[7%Z := Db.row Sample.book]}; Db.next_id := 8 |}
         Sample.store;
     BookCard.cards := [7%Z];
     BookCard._objectUrls := ∅; BookCard.object_urls := ∅;
     BookCard.grid_hidden := false; BookCard.empty_hidden := true;
     BookCard.toasts := []; BookCard.console := [] |}.

Lemma failed_removal_keeps_card_of_deleted_row_witness :
  let w := stored_card in
  let w' := BookCard.confirmRemove Sample.book true file_stays w in
  Db.rows (Db.books (Store.db (BookCard.store w))) !! 7%Z
  = Some (Db.row Sample.book)
  ∧ Db.rows (Db.books (Store.db (BookCard.store w'))) !! Db.id Sample.book
    = None
  ∧ BookCard.cards w' = BookCard.cards w
  ∧ BookCard._objectUrls w' = BookCard._objectUrls w
  ∧ BookCard.object_urls w' = BookCard.object_urls w
  ∧ BookCard.toasts w'
    = BookCard.toasts w ++ [("Failed to remove book", "error")]
  ∧ BookCard.console w' = BookCard.console w ++ ["Failed to remove book"].
Proof.
  intros w w'. split; [by vm_compute|].
  exact (failed_removal_keeps_card_of_deleted_row Sample.book file_stays w
           eq_refl eq_refl).
Defined.
